(** * OptiBnB: the nearest-neighbour imputation engine of the cleaning notebook

    A shallow embedding of [KNN_predict], [KNN_fill] and the rounding loop of
    the data-cleaning notebook, with the pandas / numpy / scikit-learn
    operations they call.

    Conventions.
    - A float64 scalar is a rational ([Q]); the missing marker NaN is [None].
    - A row is a mapping from column names to cells, paired with its index
      label; a data frame is a schema (column names with their dtype) and a
      list of labelled rows.
    - A Python exception aborts the run: fallible functions return [option],
      and [None] is the raised exception (KeyError, ValueError, ...).
    - The notebook runs on a Python 2.7 kernel with the pandas of that
      generation, where [temp_df[c].fillna(..., inplace=True)] writes through
      to [temp_df].

    Also embedded: [percent_empty] and the loop that registers the columns
    with missing values, the dropping of columns, the deletion of erroneous
    entries, the trimming of neighbourhoods, [encode_categorical], the cells
    that take the price off and attach it again around the imputation, and
    the price buckets of the exploration notebook. *)

From Stdlib Require Import String List ZArith QArith Qround Lia Bool Arith.
From Stdlib Require Import Permutation Sorted.
Import ListNotations.

Close Scope Q_scope.
Open Scope string_scope.
Open Scope nat_scope.
Open Scope list_scope.

(** ** Option as the exception monad *)

Definition bind {A B : Type} (m : option A) (f : A -> option B) : option B :=
  match m with
  | Some a => f a
  | None => None
  end.

Notation "x <- m ;; k" := (bind m (fun x => k))
  (at level 61, m at next level, right associativity).
Notation "' pat <- m ;; k" := (bind m (fun x => match x with pat => k end))
  (at level 61, pat pattern, m at next level, right associativity).

(** ** Cells and series *)

Definition cell := option Q.

Definition NaN : cell := None.

Definition isnan (v : cell) : bool :=
  match v with
  | None => true
  | Some _ => false
  end.

(** The observed (non-NaN) values of a series, in order. *)
Fixpoint dropna (l : list cell) : list Q :=
  match l with
  | [] => []
  | None :: t => dropna t
  | Some q :: t => q :: dropna t
  end.

Definition Qsum (l : list Q) : Q := fold_right Qplus 0%Q l.

Definition Qmean (l : list Q) : cell :=
  match l with
  | [] => NaN
  | _ => Some (Qred (Qsum l / inject_Z (Z.of_nat (length l)))%Q)
  end.

(** [Series.mean()]: NaN entries are skipped; an all-NaN or empty series
    has mean NaN. *)
Definition series_mean (l : list cell) : cell := Qmean (dropna l).

Fixpoint Qinsert (x : Q) (l : list Q) : list Q :=
  match l with
  | [] => [x]
  | y :: t => if Qle_bool x y then x :: l else y :: Qinsert x t
  end.

Definition Qsort (l : list Q) : list Q := fold_right Qinsert [] l.

(** [Series.median()]: the middle observed value, or the mean of the two
    middle ones; NaN when nothing is observed. *)
Definition series_median (l : list cell) : cell :=
  let s := Qsort (dropna l) in
  let n := length s in
  match n with
  | O => NaN
  | _ =>
      if Nat.even n
      then Some (Qred ((nth (n / 2 - 1) s 0 + nth (n / 2) s 0) / (2 # 1))%Q)
      else Some (nth (n / 2) s 0%Q)
  end.

(** [Series.fillna(m)] on one cell. Filling with NaN changes nothing. *)
Definition fillna (m : cell) (v : cell) : cell :=
  match v with
  | None => m
  | Some _ => v
  end.

(** Cell arithmetic of [(a - b) ** 2]; NaN propagates. *)
Definition sqdiff (a b : cell) : cell :=
  match a, b with
  | Some x, Some y => Some (Qred ((x - y) * (x - y))%Q)
  | _, _ => NaN
  end.

Fixpoint zip_with {A B C : Type} (f : A -> B -> C) (l : list A) (l' : list B)
  : list C :=
  match l, l' with
  | a :: t, b :: t' => f a b :: zip_with f t t'
  | _, _ => []
  end.

Definition cell_eqb (a b : cell) : bool :=
  match a, b with
  | Some x, Some y => Qeq_bool x y
  | _, _ => false
  end.

(** [Metrics.accuracy_score(y_true, y_pred, normalize=True)]: the fraction of
    positions where both agree. *)
Definition accuracy_score (y_true y_pred : list cell) : cell :=
  match y_true with
  | [] => NaN
  | _ =>
      let hits := length (filter (fun b : bool => b)
                                 (zip_with cell_eqb y_true y_pred)) in
      Some (Qred (inject_Z (Z.of_nat hits)
                  / inject_Z (Z.of_nat (length y_true)))%Q)
  end.

(** [Series.round()]: numpy rounds half to even. *)
Definition Qround_half_even (x : Q) : Q :=
  let f := Qfloor x in
  let d := (x - inject_Z f)%Q in
  match Qcompare d (1 # 2)%Q with
  | Lt => inject_Z f
  | Gt => inject_Z (f + 1)
  | Eq => if Z.even f then inject_Z f else inject_Z (f + 1)
  end.

Definition cell_round (v : cell) : cell :=
  match v with
  | None => NaN
  | Some x => Some (Qround_half_even x)
  end.

(** ** numpy reductions *)

Fixpoint first_nan (l : list cell) : option nat :=
  match l with
  | [] => None
  | None :: _ => Some O
  | Some _ :: t => option_map S (first_nan t)
  end.

(** Index of the first element that no other element beats, where
    [better x y] says that [x] strictly beats [y]. *)
Fixpoint arg_best (better : Q -> Q -> bool) (l : list Q) : option nat :=
  match l with
  | [] => None
  | x :: t =>
      match arg_best better t with
      | None => Some O
      | Some i => if better (nth i t 0%Q) x then Some (S i) else Some O
      end
  end.

Definition Qlt_bool (x y : Q) : bool := negb (Qle_bool y x).

(** [np.argmin]: ValueError on an empty sequence; the position of the first
    NaN when there is one; otherwise the first position of the minimum. *)
Definition np_argmin (l : list cell) : option nat :=
  match first_nan l with
  | Some i => Some i
  | None => arg_best Qlt_bool (dropna l)
  end.

(** [np.argmax], likewise with the maximum. *)
Definition np_argmax (l : list cell) : option nat :=
  match first_nan l with
  | Some i => Some i
  | None => arg_best (fun x y => Qlt_bool y x) (dropna l)
  end.

(** [i] is the first position of [l] holding a value that none beats. *)
Definition first_best (better : Q -> Q -> Prop) (l : list cell) (i : nat)
  : Prop :=
  exists v, nth_error l i = Some (Some v) /\
    (forall j w, nth_error l j = Some (Some w) -> ~ better w v) /\
    (forall j w, j < i -> nth_error l j = Some (Some w) -> better v w).

(** [int(np.mean(l))] on a list of small positive integers: the sum is exact
    in float64 and the correctly rounded quotient truncates to the integer
    quotient. [int(nan)] on the empty list is a ValueError. *)
Definition int_mean (l : list nat) : option nat :=
  match l with
  | [] => None
  | _ => Some (list_sum l / length l)
  end.

(** ** Data frames *)

Inductive dtype : Type :=
| float64
| int64.

Definition dtype_eqb (a b : dtype) : bool :=
  match a, b with
  | float64, float64 => true
  | int64, int64 => true
  | _, _ => false
  end.

Definition row := string -> cell.

Definition labelled_row : Type := (Z * row)%type.

Record DataFrame : Type := mkDF {
  columns : list (string * dtype);
  rows : list labelled_row
}.

Definition column_names (df : DataFrame) : list string :=
  map fst (columns df).

Definition has_column (df : DataFrame) (c : string) : bool :=
  existsb (String.eqb c) (column_names df).

(** [df[c].dtype]; KeyError when the column is absent. *)
Definition col_dtype (df : DataFrame) (c : string) : option dtype :=
  option_map snd (find (fun p => String.eqb c (fst p)) (columns df)).

(** The values of column [c] in a list of rows. *)
Definition column_values (c : string) (l : list labelled_row) : list cell :=
  map (fun r : labelled_row => snd r c) l.

(** [df[c]]; KeyError when the column is absent. *)
Definition get_column (df : DataFrame) (c : string) : option (list cell) :=
  if has_column df c then Some (column_values c (rows df)) else None.

(** The values of the columns other than [c], row by row. *)
Definition drop_values (df : DataFrame) (c : string) : list (list cell) :=
  let keep := filter (fun c' => negb (String.eqb c c')) (column_names df) in
  map (fun r : labelled_row => map (snd r) keep) (rows df).

(** [df.drop(c, axis=1)]; an error when the column is absent. *)
Definition drop (df : DataFrame) (c : string) : option (list (list cell)) :=
  if has_column df c then Some (drop_values df c) else None.

Definition row_set (c : string) (v : cell) (r : row) : row :=
  fun c' => if String.eqb c' c then v else r c'.

(** [df[c] = vals] on a copy: ValueError when the lengths differ; an absent
    column is appended. *)
Definition set_column (df : DataFrame) (c : string) (d : dtype)
  (vals : list cell) : option DataFrame :=
  if Nat.eqb (length vals) (length (rows df))
  then Some {| columns := if has_column df c then columns df
                          else columns df ++ [(c, d)];
               rows := zip_with (fun (r : labelled_row) v =>
                                   (fst r, row_set c v (snd r)))
                                (rows df) vals |}
  else None.

(** [pd.isnull(df).any(axis=1)] on one row: is any column of the frame NaN? *)
Definition row_isnull (cols : list string) (r : labelled_row) : bool :=
  existsb (fun c => isnan (snd r c)) cols.

Definition select_rows (p : labelled_row -> bool) (df : DataFrame)
  : DataFrame :=
  {| columns := columns df; rows := filter p (rows df) |}.

(** [df[c].fillna(df[c].median(), inplace=True)]. *)
Definition fillna_median (df : DataFrame) (c : string) : option DataFrame :=
  col <- get_column df c ;;
  let m := series_median col in
  Some {| columns := columns df;
          rows := map (fun r : labelled_row =>
                         (fst r, row_set c (fillna m (snd r c)) (snd r)))
                      (rows df) |}.

Fixpoint insert_by_index (r : labelled_row) (l : list labelled_row)
  : list labelled_row :=
  match l with
  | [] => [r]
  | r' :: t =>
      if Z.leb (fst r) (fst r') then r :: l else r' :: insert_by_index r t
  end.

(** [df.sort_index()]: rows ordered by their label (labels here are
    distinct, so the result does not depend on the sorting algorithm). *)
Definition sort_index (df : DataFrame) : DataFrame :=
  {| columns := columns df;
     rows := fold_right insert_by_index [] (rows df) |}.

(** [pd.concat([a, b])] of two frames with the schema of [a]. *)
Definition concat (a b : DataFrame) : DataFrame :=
  {| columns := columns a; rows := rows a ++ rows b |}.

(** ** The external libraries

    [sample] is [DataFrame.sample(frac=1)]: a shuffle of the rows drawn from
    numpy's global generator, whose state [rng] it advances.
    [knn_fit_predict d k X y X'] builds [KNeighborsRegressor(n_neighbors=k)]
    for a float64 target and [KNeighborsClassifier(n_neighbors=k)] otherwise,
    fits it on [(X, y)] and predicts on [X']; [None] is any exception the
    library raises. *)
Class Libraries : Type := {
  rng : Type;
  sample : rng -> list labelled_row -> list labelled_row * rng;
  knn_fit_predict :
    dtype -> nat -> list (list cell) -> list cell -> list (list cell)
    -> option (list cell)
}.

(** scikit-learn never predicts NaN. *)
Definition knn_total_output (L : Libraries) : Prop :=
  forall d k X y X' p,
    knn_fit_predict d k X y X' = Some p -> Forall (fun v => v <> NaN) p.

Section Engine.

Context {L : Libraries}.

(** [KNN_predict(df_missing, df_temp, df_filled, column_name, k)]. *)
Definition KNN_predict (df_missing df_temp df_filled : DataFrame)
  (column_name : string) (k : nat) : option DataFrame :=
  y <- get_column df_filled column_name ;;
  X_filled <- drop df_filled column_name ;;
  X_missing <- drop df_temp column_name ;;
  d <- col_dtype df_filled column_name ;;
  df_predict_col <- knn_fit_predict d k X_filled y X_missing ;;
  set_column df_missing column_name d df_predict_col.

(** The placeholder loop [for c in missing_columns: if c != column: ...]. *)
Fixpoint fill_others (temp_df : DataFrame) (cs : list string)
  (column : string) : option DataFrame :=
  match cs with
  | [] => Some temp_df
  | c :: cs' =>
      if String.eqb c column
      then fill_others temp_df cs' column
      else
        temp_df' <- fillna_median temp_df c ;;
        fill_others temp_df' cs' column
  end.

(** [range(1, 15, 2)]. *)
Definition k_grid : list nat := [1; 3; 5; 7; 9; 11; 13].

(** The shuffle and split of one pass of the inner loop. *)
Definition shuffle_split (df_filled : DataFrame) (test_ind : nat) (g : rng)
  : DataFrame * DataFrame * rng :=
  let (df_shuffled, g') := sample g (rows df_filled) in
  ({| columns := columns df_filled; rows := firstn test_ind df_shuffled |},
   {| columns := columns df_filled; rows := skipn test_ind df_shuffled |},
   g').

(** One pass of the inner loop [for k in range(1, 15, 2)]: the score of
    candidate [k], appended to [RSS] or to [scores]. [df_pred] and [df_test]
    carry the same labels in the same order, so the difference of the two
    series is taken position by position. *)
Definition cv_candidate (df df_filled : DataFrame) (test_ind : nat)
  (column : string) (k : nat) (acc : list cell * list cell * rng)
  : option (list cell * list cell * rng) :=
  let '(RSS, scores, g) := acc in
  let '(df_test, df_train, g') := shuffle_split df_filled test_ind g in
  df_pred <- KNN_predict df_test df_test df_train column k ;;
  d <- col_dtype df column ;;
  pred <- get_column df_pred column ;;
  test <- get_column df_test column ;;
  if dtype_eqb d float64
  then Some (RSS ++ [series_mean (zip_with sqdiff pred test)], scores, g')
  else Some (RSS, scores ++ [accuracy_score test pred], g').

(** The list a candidate's score goes to. *)
Definition score_list (d : dtype) (acc : list cell * list cell * rng)
  : list cell :=
  if dtype_eqb d float64 then fst (fst acc) else snd (fst acc).

Fixpoint cv_candidates (df df_filled : DataFrame) (test_ind : nat)
  (column : string) (ks : list nat) (acc : list cell * list cell * rng)
  : option (list cell * list cell * rng) :=
  match ks with
  | [] => Some acc
  | k :: ks' =>
      acc' <- cv_candidate df df_filled test_ind column k acc ;;
      cv_candidates df df_filled test_ind column ks' acc'
  end.

(** One pass of the outer loop [for k in range(10)]: score every candidate,
    then append the recorded position to [best_ks]. *)
Definition cv_repetition (df df_filled : DataFrame) (test_ind : nat)
  (column : string) (st : list nat * rng) : option (list nat * rng) :=
  let (best_ks, g) := st in
  '(RSS, scores, g') <-
    cv_candidates df df_filled test_ind column k_grid ([], [], g) ;;
  d <- col_dtype df column ;;
  i <- (if dtype_eqb d float64 then np_argmin RSS else np_argmax scores) ;;
  Some (best_ks ++ [i + 1], g').

(** What one repetition for [column] can record: one more than the position,
    in grid order, of the best of the seven candidate scores. The candidate
    at position [i] is [2 * i + 1]. *)
Definition recorded_position (df df_filled : DataFrame) (test_ind : nat)
  (column : string) (p : nat) : Prop :=
  exists g g' RSS scores d i,
    cv_candidates df df_filled test_ind column k_grid ([], [], g)
    = Some (RSS, scores, g') /\
    col_dtype df column = Some d /\
    (if dtype_eqb d float64
     then length RSS = 7 /\ np_argmin RSS = Some i /\
          (first_nan RSS = None -> first_best Qlt RSS i)
     else length scores = 7 /\ np_argmax scores = Some i /\
          (first_nan scores = None ->
           first_best (fun x y => Qlt y x) scores i)) /\
    p = i + 1 /\ nth i k_grid 0 = 2 * i + 1.

Fixpoint cv_repetitions (df df_filled : DataFrame) (test_ind : nat)
  (column : string) (n : nat) (st : list nat * rng)
  : option (list nat * rng) :=
  match n with
  | O => Some st
  | S n' =>
      st' <- cv_repetition df df_filled test_ind column st ;;
      cv_repetitions df df_filled test_ind column n' st'
  end.

(** The variables of [KNN_fill] that live across iterations of its main
    loop. *)
Record loop_state : Type := mkState {
  df_missing : DataFrame;
  best_ks : list nat;
  gen : rng
}.

(** The cross-validation part of one iteration of the main loop: ten
    repetitions, then [best_k = int(np.mean(best_ks))]. *)
Definition select_k (df df_filled : DataFrame) (test_ind : nat)
  (column : string) (st : loop_state) : option (nat * loop_state) :=
  '(best_ks', g') <-
    cv_repetitions df df_filled test_ind column 10 (best_ks st, gen st) ;;
  best_k <- int_mean best_ks' ;;
  Some (best_k, {| df_missing := df_missing st;
                   best_ks := best_ks';
                   gen := g' |}).

(** One iteration of the main loop [for column in missing_columns]. *)
Definition impute_column (df df_filled : DataFrame) (test_ind : nat)
  (missing_columns : list string) (st : loop_state) (column : string)
  : option loop_state :=
  temp_df <- fill_others (df_missing st) missing_columns column ;;
  '(best_k, st') <- select_k df df_filled test_ind column st ;;
  df_missing' <- KNN_predict (df_missing st') temp_df df_filled column
                             best_k ;;
  Some {| df_missing := df_missing';
          best_ks := best_ks st';
          gen := gen st' |}.

Fixpoint impute_columns (df df_filled : DataFrame) (test_ind : nat)
  (missing_columns : list string) (st : loop_state) (todo : list string)
  : option loop_state :=
  match todo with
  | [] => Some st
  | column :: todo' =>
      st' <- impute_column df df_filled test_ind missing_columns st column ;;
      impute_columns df df_filled test_ind missing_columns st' todo'
  end.

(** The two row subsets [KNN_fill] starts from. *)
Definition missing_part (df : DataFrame) : DataFrame :=
  select_rows (row_isnull (column_names df)) df.

Definition filled_part (df : DataFrame) : DataFrame :=
  select_rows (fun r => negb (row_isnull (column_names df) r)) df.

(** [int(0.3 * n)]: the float product truncates to the integer quotient of
    [3 * n] by [10]. *)
Definition test_size (n : nat) : nat := 3 * n / 10.

Definition initial_state (df : DataFrame) (g : rng) : loop_state :=
  {| df_missing := missing_part df; best_ks := []; gen := g |}.

(** The main loop of [KNN_fill], from the state before the first column. *)
Definition KNN_fill_loop (g : rng) (df : DataFrame)
  (missing_columns : list string) : option loop_state :=
  let df_filled := filled_part df in
  let test_ind := test_size (length (rows df_filled)) in
  impute_columns df df_filled test_ind missing_columns
                 (initial_state df g) missing_columns.

(** [KNN_fill(df, missing_columns)], run from generator state [g]. *)
Definition KNN_fill (g : rng) (df : DataFrame)
  (missing_columns : list string) : option DataFrame :=
  st <- KNN_fill_loop g df missing_columns ;;
  let df_final := concat (filled_part df) (df_missing st) in
  Some (sort_index df_final).

(** [listings_clean[c] = listings_clean[c].round()]; KeyError on an absent
    column. *)
Definition round_column (df : DataFrame) (c : string) : option DataFrame :=
  if has_column df c
  then Some {| columns := columns df;
               rows := map (fun r : labelled_row =>
                              (fst r, row_set c (cell_round (snd r c))
                                              (snd r)))
                           (rows df) |}
  else None.

(** The rounding loop [for c in missing_columns]. *)
Fixpoint round_columns (df : DataFrame) (cs : list string)
  : option DataFrame :=
  match cs with
  | [] => Some df
  | c :: cs' =>
      df' <- round_column df c ;;
      round_columns df' cs'
  end.

(** The imputation run of the notebook: [KNN_fill], then the rounding
    loop. *)
Definition impute_run (g : rng) (df : DataFrame)
  (missing_columns : list string) : option DataFrame :=
  listings_clean <- KNN_fill g df missing_columns ;;
  round_columns listings_clean missing_columns.

End Engine.

(** ** Feature emptiness and the registration of columns

    A column is a list of optional values of any kind: [isnull] only tells
    a missing value from a present one. *)

Definition isnull {A : Type} (v : option A) : bool :=
  match v with
  | None => true
  | Some _ => false
  end.

(** [percent_empty(df)]: the fraction and the number of missing entries of a
    column; the division raises ZeroDivisionError on a column without
    entries. *)
Definition percent_empty {A : Type} (df : list (option A))
  : option (Q * nat) :=
  let bools := map isnull df in
  let count := count_occ bool_dec bools true in
  match length bools with
  | O => None
  | S _ =>
      Some (Qred (inject_Z (Z.of_nat count)
                  / inject_Z (Z.of_nat (length bools)))%Q,
            count)
  end.

(** The loop [for i in range(0, listings.shape[1])] over the columns of the
    frame, given with their names in column order, as far as it fills
    [missing_columns] (the rounded fractions it also collects only feed a
    plot). *)
Fixpoint register_missing {A : Type} (cols : list (string * list (option A)))
  (missing_columns : list string) : option (list string) :=
  match cols with
  | [] => Some missing_columns
  | (name, col) :: rest =>
      '(p, n) <- percent_empty col ;;
      register_missing rest
        (if 0 <? n then missing_columns ++ [name] else missing_columns)
  end.

(** The columns of a numeric frame with their names, in column order. *)
Definition frame_columns (df : DataFrame) : list (string * list cell) :=
  map (fun c => (c, column_values c (rows df))) (column_names df).

(** [df.drop(labels, axis=1)]: an error when a label is not a column. *)
Definition drop_columns (df : DataFrame) (labels : list string)
  : option DataFrame :=
  if forallb (has_column df) labels
  then Some {| columns :=
                 filter (fun p => negb (existsb (String.eqb (fst p)) labels))
                        (columns df);
               rows := rows df |}
  else None.

(** [l.remove(x)]: the first occurrence is removed; ValueError when there is
    none. *)
Fixpoint list_remove (x : string) (l : list string) : option (list string) :=
  match l with
  | [] => None
  | y :: t =>
      if String.eqb y x then Some t
      else t' <- list_remove x t ;; Some (y :: t')
  end.

(** ** Deleting erroneous entries and re-attaching the price *)

(** [v != q] on a cell: NaN differs from every number. *)
Definition cell_ne (v : cell) (q : Q) : bool :=
  match v with
  | Some x => negb (Qeq_bool x q)
  | None => true
  end.

(** [df[df.c != 0]]: the rows whose [c] is not zero, in order; an error when
    the frame has no column [c]. *)
Definition rows_nonzero (df : DataFrame) (c : string) : option DataFrame :=
  if has_column df c
  then Some (select_rows (fun r => cell_ne (snd r c) 0%Q) df)
  else None.

(** A labelled series of floats, such as the price [y]. *)
Definition Series : Type := list (Z * cell).

(** The value of a series at a label: that of its first entry with the
    label, NaN when it has none. *)
Definition series_at (y : Series) (i : Z) : cell :=
  match find (fun e => Z.eqb (fst e) i) y with
  | Some e => snd e
  | None => NaN
  end.

(** [df.join(y)] for a series [y] named [name]: a left join on the labels.
    Every row of the frame is kept, in order, once for each entry of the
    series with its label (once with NaN when there is none); an error when
    the frame already has a column [name]. *)
Definition join (df : DataFrame) (name : string) (y : Series)
  : option DataFrame :=
  if has_column df name then None
  else
    Some {| columns := columns df ++ [(name, float64)];
            rows :=
              flat_map
                (fun r : labelled_row =>
                   match filter (fun e => Z.eqb (fst e) (fst r)) y with
                   | [] => [(fst r, row_set name NaN (snd r))]
                   | es =>
                       map (fun e : Z * cell =>
                              (fst r, row_set name (snd e) (snd r))) es
                   end)
                (rows df) |}.

(** [del df[c]]; KeyError when the column is absent. *)
Definition del_column (df : DataFrame) (c : string) : option DataFrame :=
  if has_column df c
  then Some {| columns := filter (fun p => negb (String.eqb (fst p) c))
                                 (columns df);
               rows := rows df |}
  else None.

(** The cell that deletes the erroneous entries: listings with 0 bedrooms,
    0 beds or 0 bathrooms go, the price is attached, listings with a price
    of 0 go. *)
Definition delete_bad_entries (listings : DataFrame) (y : Series)
  : option DataFrame :=
  listings <- rows_nonzero listings "bedrooms" ;;
  listings <- rows_nonzero listings "beds" ;;
  listings <- rows_nonzero listings "bathrooms" ;;
  listings <- join listings "price" y ;;
  rows_nonzero listings "price".

(** The row of the frame with the price of the series attached. *)
Definition with_price (y : Series) (r : labelled_row) : labelled_row :=
  (fst r, row_set "price" (series_at y (fst r)) (snd r)).

(** The listings that the deletion keeps. *)
Definition good_entry (y : Series) (r : labelled_row) : bool :=
  cell_ne (snd r "bedrooms") 0%Q && cell_ne (snd r "beds") 0%Q
  && cell_ne (snd r "bathrooms") 0%Q && cell_ne (series_at y (fst r)) 0%Q.

(** The cells that impute and finish the frame, from [del listings['price']]
    on (the frame is label-encoded already): the price is taken off, the
    missing values are imputed, the price is attached again to the listings
    and to the imputed frame, and the registered columns of the imputed
    frame are rounded. *)
Definition clean_listings {L : Libraries} (g : rng) (listings : DataFrame)
  (y : Series) (missing_columns : list string) : option DataFrame :=
  listings <- del_column listings "price" ;;
  listings_clean <- KNN_fill g listings missing_columns ;;
  listings <- join listings "price" y ;;
  listings_clean <- join listings_clean "price" y ;;
  round_columns listings_clean missing_columns.

(** ** Label encoding *)

Section LabelEncoder.

Variable A : Type.
Variable eqb leb : A -> A -> bool.

Fixpoint insert_unique (x : A) (l : list A) : list A :=
  match l with
  | [] => [x]
  | y :: t =>
      if eqb x y then l
      else if leb x y then x :: l else y :: insert_unique x t
  end.

(** [np.unique]: the distinct values, sorted. *)
Definition np_unique (l : list A) : list A := fold_right insert_unique [] l.

(** The position of a value in the sorted classes. *)
Fixpoint index_of (x : A) (l : list A) : nat :=
  match l with
  | [] => O
  | y :: t => if eqb x y then O else S (index_of x t)
  end.

(** [LabelEncoder().fit_transform(y)]: every value is replaced by its
    position among the sorted distinct values. *)
Definition fit_transform (y : list A) : list nat :=
  let classes := np_unique y in
  map (fun v => index_of v classes) y.

End LabelEncoder.

Arguments insert_unique {A} eqb leb x l.
Arguments np_unique {A} eqb leb l.
Arguments index_of {A} eqb x l.
Arguments fit_transform {A} eqb leb y.

(** A column before encoding: floats with NaN, strings, or integers. *)
Inductive array : Type :=
| float_array (l : list cell)
| object_array (l : list string)
| int_array (l : list Z).

(** [encode_categorical(array)]: a float64 column is returned as it is, any
    other column is label-encoded. *)
Definition encode_categorical (a : array) : array :=
  match a with
  | float_array _ => a
  | object_array l =>
      int_array (map Z.of_nat (fit_transform String.eqb String.leb l))
  | int_array l =>
      int_array (map Z.of_nat (fit_transform Z.eqb Z.leb l))
  end.

(** ** Trimming the neighbourhoods *)

(** One more occurrence of [s] in a counter. *)
Fixpoint counter_add (s : string) (c : list (string * nat))
  : list (string * nat) :=
  match c with
  | [] => [(s, 1)]
  | (k, n) :: t =>
      if String.eqb k s then (k, S n) :: t else (k, n) :: counter_add s t
  end.

(** [Counter(l)]: the distinct values with the number of their occurrences.
    The order of the keys of the dictionary is not fixed by the language;
    the loop below takes it as an argument. *)
Definition Counter (l : list string) : list (string * nat) :=
  fold_left (fun c s => counter_add s c) l [].

(** [c[k]]: a counter reads 0 at an absent key. *)
Definition counter_get (c : list (string * nat)) (k : string) : nat :=
  match find (fun e => String.eqb (fst e) k) c with
  | Some e => snd e
  | None => O
  end.

(** [del c[k]]: a counter, unlike a plain dictionary, ignores the deletion
    of an absent key. *)
Definition counter_del (c : list (string * nat)) (k : string)
  : list (string * nat) :=
  filter (fun e => negb (String.eqb (fst e) k)) c.

Section Trimming.

Variable Row : Type.
Variable neighbourhood_cleansed : Row -> string.

(** The loop [for i in nb_counts.keys()], over the keys in the order
    [keys] (a list made before the loop starts, so that deleting inside the
    loop is allowed): a neighbourhood with fewer than 100 listings is deleted
    from the counter and its listings are taken out of the frame. No step of
    the loop can raise. *)
Fixpoint trim_loop (keys : list string) (nb_counts : list (string * nat))
  (listings : list Row) : list (string * nat) * list Row :=
  match keys with
  | [] => (nb_counts, listings)
  | i :: keys' =>
      if counter_get nb_counts i <? 100
      then
        trim_loop keys' (counter_del nb_counts i)
          (filter (fun r => negb (String.eqb (neighbourhood_cleansed r) i))
                  listings)
      else trim_loop keys' nb_counts listings
  end.

(** The counting cell followed by the trimming loop. *)
Definition trim_neighbourhoods (keys : list string) (listings : list Row)
  : list (string * nat) * list Row :=
  trim_loop keys (Counter (map neighbourhood_cleansed listings)) listings.

End Trimming.

Arguments trim_loop {Row} neighbourhood_cleansed keys nb_counts listings.
Arguments trim_neighbourhoods {Row} neighbourhood_cleansed keys listings.

(** ** Price buckets of the exploration notebook *)

Section Buckets.

Variable Row : Type.
Variable prices : Row -> Q.

(** The loop [for i in range(0, len(intervals) - 1)] that fills [buckets]:
    the [i]-th bucket holds the listings whose price is strictly between
    [intervals[i]] and [intervals[i+1]]. *)
Fixpoint price_buckets (intervals : list Q) (listings : list Row)
  : list (list Row) :=
  match intervals with
  | lo :: rest =>
      match rest with
      | hi :: _ =>
          filter (fun r => Qlt_bool lo (prices r) && Qlt_bool (prices r) hi)
                 listings
          :: price_buckets rest listings
      | [] => []
      end
  | [] => []
  end.

End Buckets.

Arguments price_buckets {Row} prices intervals listings.

(** The bounds of the notebook. *)
Definition intervals : list Q := [0%Q; 100%Q; 300%Q; 10000%Q].

(** ** A reference model of the libraries

    Brute-force nearest neighbours with Euclidean distance and uniform
    weights, and a generator whose draws are rotations. This is one possible
    behaviour of the libraries, used to run the engine on the example
    frames; the general theorems are stated for every [Libraries]. Among
    training rows at the same distance scikit-learn takes whichever its
    search structure yields; the model takes the earliest, so a value
    computed with it below is this model's, and can differ from what a
    given scikit-learn release returns on the same rows. *)

(** Input validation: NaN is rejected. *)
Fixpoint all_finite (l : list cell) : option (list Q) :=
  match l with
  | [] => Some []
  | None :: _ => None
  | Some q :: t => t' <- all_finite t ;; Some (q :: t')
  end.

Fixpoint all_finite_rows (X : list (list cell)) : option (list (list Q)) :=
  match X with
  | [] => Some []
  | r :: t =>
      r' <- all_finite r ;;
      t' <- all_finite_rows t ;;
      Some (r' :: t')
  end.

Definition sq_dist (a b : list Q) : Q :=
  Qred (Qsum (zip_with (fun x y => ((x - y) * (x - y))%Q) a b)).

Fixpoint insert_by_dist (p : Q * Q) (l : list (Q * Q)) : list (Q * Q) :=
  match l with
  | [] => [p]
  | p' :: t =>
      if Qle_bool (fst p) (fst p') then p :: l else p' :: insert_by_dist p t
  end.

(** The targets of the [k] training rows nearest to [x], nearest first,
    earlier rows first among equidistant ones. *)
Definition neighbours (k : nat) (X : list (list Q)) (y : list Q)
  (x : list Q) : list Q :=
  let pairs := zip_with (fun r t => (sq_dist r x, t)) X y in
  map snd (firstn k (fold_right insert_by_dist [] pairs)).

Definition count_eq (v : Q) (l : list Q) : nat :=
  length (filter (Qeq_bool v) l).

(** Majority vote; the smallest label wins a tie. *)
Definition vote (ys : list Q) : cell :=
  match Qsort ys with
  | [] => NaN
  | v :: t =>
      Some (fold_left (fun best c =>
                         if count_eq best ys <? count_eq c ys
                         then c else best) t v)
  end.

(** Every row of [X] has [w] features. *)
Definition same_width (w : nat) (X : list (list Q)) : bool :=
  forallb (fun r => length r =? w) X.

(** Fitting and predicting raise on NaN, on [k = 0], on more neighbours than
    training rows, on a target of another length, on no row to predict, and
    on rows that differ in their number of features. *)
Definition knn_model (d : dtype) (k : nat) (X : list (list cell))
  (y : list cell) (X' : list (list cell)) : option (list cell) :=
  Xq <- all_finite_rows X ;;
  yq <- all_finite y ;;
  Xq' <- all_finite_rows X' ;;
  let w := length (hd [] Xq) in
  if (k =? 0) || (length Xq <? k) || negb (length Xq =? length yq)
     || (length Xq' =? 0) || negb (same_width w Xq && same_width w Xq')
  then None
  else
    Some (map (fun x =>
                 let ys := neighbours k Xq yq x in
                 match d with
                 | float64 => Qmean ys
                 | int64 => vote ys
                 end) Xq').

Definition rotate {A : Type} (n : nat) (l : list A) : list A :=
  skipn n l ++ firstn n l.

(** The [g]-th draw rotates the rows by [g] places. *)
Definition rot_sample (g : nat) (l : list labelled_row)
  : list labelled_row * nat :=
  (rotate (g mod (length l)) l, S g).

Definition reference_libs : Libraries := {|
  rng := nat;
  sample := rot_sample;
  knn_fit_predict := knn_model
|}.

(** ** Example frames *)

(** A row given by its observed and missing cells; other columns read NaN. *)
Fixpoint row_of (l : list (string * cell)) : row :=
  match l with
  | [] => fun _ => NaN
  | (c, v) :: t => fun c' => if String.eqb c' c then v else row_of t c'
  end.

Definition num (z : Z) : cell := Some (inject_Z z).

(** Twenty-three listings. [accommodates] is complete; [bedrooms] is missing
    in listings 5 and 17, [beds] in listings 11 and 17. Listing 5 has an
    observed [beds] of 100. *)
Definition listing (i : nat) : labelled_row :=
  let z := Z.of_nat i in
  (z, row_of
        [("accommodates", num z);
         ("bedrooms", if (i =? 5) || (i =? 17) then NaN else num z);
         ("beds", if (i =? 11) || (i =? 17) then NaN
                  else if i =? 5 then num 100 else num 7)]).

Definition listings : DataFrame :=
  {| columns := [("accommodates", float64); ("bedrooms", float64);
                 ("beds", float64)];
     rows := map listing (seq 0 23) |}.

Definition listings_missing_columns : list string := ["bedrooms"; "beds"].

(** The twenty-three listings, the last one first: the labels decrease
    along the rows. *)
Definition rev_listings : DataFrame :=
  {| columns := columns listings; rows := rev (rows listings) |}.

(** Two listings under one label, the second lacking its bedrooms. *)
Definition twins : DataFrame :=
  {| columns := [("accommodates", float64); ("bedrooms", float64)];
     rows := [(4%Z, row_of [("accommodates", num 2); ("bedrooms", num 1)]);
              (4%Z, row_of [("accommodates", num 3); ("bedrooms", NaN)])] |}.

(** One listing whose only missing value is outside the registered
    columns. *)
Definition lonely_listing : labelled_row :=
  (0%Z, row_of [("latitude", NaN); ("bedrooms", num 2)]).

Definition lonely : DataFrame :=
  {| columns := [("latitude", float64); ("bedrooms", float64)];
     rows := [lonely_listing] |}.

(** The prices of the twenty-three listings, and the listings with their
    price. *)
Definition listing_prices : Series :=
  map (fun i => (Z.of_nat i, num (Z.of_nat (50 + i)))) (seq 0 23).

Definition priced_listings : DataFrame :=
  {| columns := columns listings ++ [("price", float64)];
     rows := map (with_price listing_prices) (rows listings) |}.

(** Five entries: the second has no bedroom, the fourth no bed, the fifth a
    price of 0; the third lacks its number of bedrooms. *)
Definition entries : DataFrame :=
  {| columns := [("bedrooms", float64); ("beds", float64);
                 ("bathrooms", float64)];
     rows :=
       [(0%Z, row_of [("bedrooms", num 1); ("beds", num 1);
                      ("bathrooms", num 1)]);
        (1%Z, row_of [("bedrooms", num 0); ("beds", num 1);
                      ("bathrooms", num 1)]);
        (2%Z, row_of [("bedrooms", NaN); ("beds", num 2);
                      ("bathrooms", Some (3 # 2)%Q)]);
        (3%Z, row_of [("bedrooms", num 2); ("beds", num 0);
                      ("bathrooms", num 1)]);
        (4%Z, row_of [("bedrooms", num 1); ("beds", num 1);
                      ("bathrooms", num 1)])] |}.

Definition entry_prices : Series :=
  [(0%Z, num 80); (1%Z, num 90); (2%Z, num 120); (3%Z, num 60);
   (4%Z, num 0)].

(** A hundred listings in one neighbourhood and two in another. *)
Definition neighbourhoods : list string :=
  repeat "Harlem" 100 ++ ["Astoria"; "Astoria"].

(** Five prices, two of them on a bound. *)
Definition some_prices : list Q := [50%Q; 100%Q; 150%Q; 300%Q; 20000%Q].

(** ** Auxiliary notions for the statements *)

Fixpoint Z_increasing (l : list Z) : bool :=
  match l with
  | [] => true
  | a :: t =>
      match t with
      | [] => true
      | b :: _ => Z.ltb a b && Z_increasing t
      end
  end.

(** The row labels of a frame. *)
Definition index (df : DataFrame) : list Z := map fst (rows df).

(** [r'] carries the label of [r] and agrees with it outside [cs]. *)
Definition same_outside (cs : list string) (r r' : labelled_row) : Prop :=
  fst r' = fst r /\ forall c, ~ In c cs -> snd r' c = snd r c.

(** No column of [cs] is missing in [r]. *)
Definition observed_on (cs : list string) (r : labelled_row) : Prop :=
  forall c, In c cs -> snd r c <> NaN.

(** Put the rows [b] back at the places of the rows of [l] selected by
    [p]. *)
Fixpoint weave {A : Type} (p : A -> bool) (l b : list A) : list A :=
  match l with
  | [] => []
  | x :: t =>
      if p x
      then match b with
           | y :: b' => y :: weave p t b'
           | [] => []
           end
      else x :: weave p t b
  end.

(** The effect of the rounding loop on one row. *)
Fixpoint round_cells (cs : list string) (r : labelled_row) : labelled_row :=
  match cs with
  | [] => r
  | c :: cs' =>
      round_cells cs' (fst r, row_set c (cell_round (snd r c)) (snd r))
  end.

(** [r'] is [r] with the columns marked by [filled] placeholder-filled from
    the medians of the rows [orig]. *)
Definition placeholder_rel (orig : list labelled_row)
  (filled : string -> bool) (r r' : labelled_row) : Prop :=
  fst r' = fst r /\
  forall c,
    snd r' c = if filled c
               then fillna (series_median (column_values c orig)) (snd r c)
               else snd r c.

Definition mem (c : string) (cs : list string) : bool :=
  existsb (String.eqb c) cs.

(** The generator state after one more shuffle of the fully-observed
    rows. *)
Definition next_gen {L : Libraries} (df_filled : DataFrame) (g : rng) : rng :=
  snd (sample g (rows df_filled)).

(** Every shuffle is a rearrangement of the rows it is given. *)
Definition sample_permutes (L : Libraries) : Prop :=
  forall g l, Permutation (fst (sample g l)) l.

(** A cell that is missing or a whole number. *)
Definition integral (v : cell) : Prop :=
  v = NaN \/ exists z, v = Some (inject_Z z).

(** * Facts *)

Ltac bind_inv H :=
  match type of H with
  | bind ?m _ = Some _ =>
      let E := fresh "E" in
      destruct m eqn:E; [cbn [bind] in H | discriminate H]
  end.

(** ** Lists *)

Lemma Forall2_compose {A B C : Type} (R1 : A -> B -> Prop)
  (R2 : B -> C -> Prop) (R : A -> C -> Prop) :
  (forall a b c, R1 a b -> R2 b c -> R a c) ->
  forall l1 l2 l3, Forall2 R1 l1 l2 -> Forall2 R2 l2 l3 -> Forall2 R l1 l3.
Proof.
  intros HR l1 l2 l3 H12. revert l3.
  induction H12; intros l3 H23; inversion H23; subst; constructor; eauto.
Qed.

Lemma Forall2_weaken {A B : Type} (R R' : A -> B -> Prop) :
  (forall a b, R a b -> R' a b) ->
  forall l l', Forall2 R l l' -> Forall2 R' l l'.
Proof.
  intros HR l l' H. induction H; constructor; auto.
Qed.

Lemma Forall2_map_r {A B C : Type} (R : A -> C -> Prop) (f : B -> C) :
  forall l l', Forall2 (fun a b => R a (f b)) l l' -> Forall2 R l (map f l').
Proof.
  intros l l' H. induction H; simpl; constructor; auto.
Qed.

Lemma Forall2_same {A : Type} (R : A -> A -> Prop) :
  (forall a, R a a) -> forall l, Forall2 R l l.
Proof.
  intros HR l. induction l; constructor; auto.
Qed.

Lemma zip_with_Forall2 {A B : Type} (f : A -> B -> A) (P : B -> Prop) :
  forall l vals,
    length vals = length l -> Forall P vals ->
    Forall2 (fun a a' => exists v, P v /\ a' = f a v) l (zip_with f l vals).
Proof.
  induction l as [|a l IH]; intros [|v vals] Hlen HP; simpl in *;
    try discriminate; constructor.
  - inversion HP; subst. exists v. auto.
  - inversion HP; subst. apply IH; auto.
Qed.


Lemma weave_Permutation {A : Type} (p : A -> bool) (R : A -> A -> Prop) :
  forall l b,
    Forall2 R (filter p l) b ->
    Permutation (weave p l b) (filter (fun x => negb (p x)) l ++ b).
Proof.
  induction l as [|x l IH]; intros b H; simpl in *.
  - inversion H; subst. constructor.
  - destruct (p x) eqn:Hp; simpl.
    + inversion H; subst. apply Permutation_cons_app. apply IH. assumption.
    + constructor. apply IH. assumption.
Qed.

Lemma weave_Forall2 {A : Type} (p : A -> bool) (R : A -> A -> Prop) :
  (forall x, p x = false -> R x x) ->
  forall l b, Forall2 R (filter p l) b -> Forall2 R l (weave p l b).
Proof.
  intros Hrefl. induction l as [|x l IH]; intros b H; simpl in *.
  - constructor.
  - destruct (p x) eqn:Hp.
    + inversion H; subst. constructor; auto.
    + constructor; auto.
Qed.

Lemma filter_partition_Permutation {A : Type} (p : A -> bool) :
  forall l,
    Permutation l (filter (fun x => negb (p x)) l ++ filter p l).
Proof.
  induction l as [|x l IH]; simpl.
  - constructor.
  - destruct (p x); simpl.
    + apply Permutation_cons_app. assumption.
    + constructor. assumption.
Qed.

(** ** Sorting by label *)

Lemma insert_by_index_Permutation (r : labelled_row) :
  forall l, Permutation (insert_by_index r l) (r :: l).
Proof.
  induction l as [|r' l IH]; simpl.
  - apply Permutation_refl.
  - destruct (Z.leb (fst r) (fst r')).
    + apply Permutation_refl.
    + eapply perm_trans; [apply perm_skip, IH | apply perm_swap].
Qed.

Lemma sort_rows_Permutation :
  forall l, Permutation (fold_right insert_by_index [] l) l.
Proof.
  induction l as [|r l IH]; simpl.
  - constructor.
  - eapply perm_trans; [apply insert_by_index_Permutation|].
    constructor. assumption.
Qed.

Lemma insert_by_index_sorted (r : labelled_row) :
  forall l,
    StronglySorted Z.le (map fst l) ->
    StronglySorted Z.le (map fst (insert_by_index r l)).
Proof.
  induction l as [|r' l IH]; simpl; intros Hs.
  - repeat constructor.
  - inversion Hs as [|? ? Hs' Hall]; subst.
    destruct (Z.leb (fst r) (fst r')) eqn:Hle; simpl.
    + apply Z.leb_le in Hle. constructor; [assumption|].
      constructor; [assumption|].
      eapply Forall_impl; [|exact Hall]. intros; lia.
    + apply Z.leb_gt in Hle. constructor; [auto|].
      assert (Hperm : Permutation (map fst (insert_by_index r l))
                                  (fst r :: map fst l)).
      { change (fst r :: map fst l) with (map fst (r :: l)).
        apply Permutation_map, insert_by_index_Permutation. }
      eapply Permutation_Forall; [apply Permutation_sym, Hperm|].
      constructor; [lia | assumption].
Qed.

Lemma sort_rows_sorted :
  forall l, StronglySorted Z.le (map fst (fold_right insert_by_index [] l)).
Proof.
  induction l as [|r l IH]; simpl.
  - constructor.
  - apply insert_by_index_sorted. assumption.
Qed.

Lemma Z_increasing_sorted :
  forall l, Z_increasing l = true -> StronglySorted Z.lt l.
Proof.
  induction l as [|a l IH]; intros H.
  - constructor.
  - destruct l as [|b l].
    + repeat constructor.
    + simpl in H. apply andb_prop in H. destruct H as [Hab Ht].
      apply Z.ltb_lt in Hab. specialize (IH Ht).
      constructor; [assumption|].
      inversion IH as [|? ? _ Hall]; subst.
      constructor; [assumption|].
      eapply Forall_impl; [|exact Hall]. intros; lia.
Qed.

Lemma sorted_Permutation_unique :
  forall l1 l2,
    StronglySorted Z.le l1 -> StronglySorted Z.lt l2 ->
    Permutation l1 l2 -> l1 = l2.
Proof.
  induction l1 as [|a l1 IH]; intros l2 H1 H2 Hp.
  - apply Permutation_nil in Hp. subst. reflexivity.
  - destruct l2 as [|b l2].
    + apply Permutation_sym, Permutation_nil in Hp. discriminate.
    + inversion H1 as [|? ? H1' Ha]; subst.
      inversion H2 as [|? ? H2' Hb]; subst.
      assert (a = b).
      { assert (Hin1 : In a (b :: l2))
          by (eapply Permutation_in; [exact Hp | left; reflexivity]).
        assert (Hin2 : In b (a :: l1))
          by (eapply Permutation_in;
              [apply Permutation_sym; exact Hp | left; reflexivity]).
        rewrite Forall_forall in Ha, Hb.
        destruct Hin1 as [->|Hin1]; [reflexivity|].
        destruct Hin2 as [->|Hin2]; [reflexivity|].
        specialize (Ha _ Hin2). specialize (Hb _ Hin1). lia. }
      subst b. f_equal. apply IH; auto.
      eapply Permutation_cons_inv. exact Hp.
Qed.

(** ** Frames *)

Lemma mem_In (c : string) (cs : list string) : mem c cs = true <-> In c cs.
Proof.
  unfold mem. rewrite existsb_exists. split.
  - intros [x [Hin Heq]]. apply String.eqb_eq in Heq. subst. assumption.
  - intros Hin. exists c. split; [assumption | apply String.eqb_refl].
Qed.

Lemma mem_not_In (c : string) (cs : list string) :
  mem c cs = false <-> ~ In c cs.
Proof.
  rewrite <- mem_In. destruct (mem c cs); split; intros; congruence.
Qed.

Lemma has_column_In (df : DataFrame) (c : string) :
  has_column df c = true <-> In c (column_names df).
Proof. apply mem_In. Qed.

Lemma get_column_inv (df : DataFrame) (c : string) (col : list cell) :
  get_column df c = Some col ->
  has_column df c = true /\ col = column_values c (rows df).
Proof.
  unfold get_column. destruct (has_column df c); intros H; inversion H.
  auto.
Qed.

Lemma set_column_inv (df df' : DataFrame) (c : string) (d : dtype)
  (vals : list cell) :
  set_column df c d vals = Some df' ->
  length vals = length (rows df) /\
  rows df' = zip_with (fun (r : labelled_row) v =>
                         (fst r, row_set c v (snd r))) (rows df) vals.
Proof.
  unfold set_column.
  destruct (Nat.eqb (length vals) (length (rows df))) eqn:Hlen;
    intros H; inversion H; subst; simpl.
  apply Nat.eqb_eq in Hlen. auto.
Qed.

Lemma row_set_same (c : string) (v : cell) (r : row) : row_set c v r c = v.
Proof. unfold row_set. rewrite String.eqb_refl. reflexivity. Qed.

Lemma row_set_other (c c' : string) (v : cell) (r : row) :
  c' <> c -> row_set c v r c' = r c'.
Proof.
  intros Hne. unfold row_set.
  destruct (String.eqb c' c) eqn:E; [|reflexivity].
  apply String.eqb_eq in E. contradiction.
Qed.

Lemma fillna_None (v : cell) : fillna None v = v.
Proof. destruct v; reflexivity. Qed.

Lemma fillna_fillna (m m' : cell) (v : cell) :
  (m = None -> m' = None) -> fillna m' (fillna m v) = fillna m v.
Proof.
  intros H. destruct v as [q|]; simpl; [reflexivity|].
  destruct m as [q|]; simpl; [reflexivity|]. auto.
Qed.

Lemma column_values_rel (c : string) (f : cell -> cell) :
  forall l l',
    Forall2 (fun r r' : labelled_row => snd r' c = f (snd r c)) l l' ->
    column_values c l' = map f (column_values c l).
Proof.
  intros l l' H. induction H; simpl; [reflexivity|]. congruence.
Qed.

Lemma fillna_median_inv (df df' : DataFrame) (c : string) :
  fillna_median df c = Some df' ->
  has_column df c = true /\ columns df' = columns df /\
  rows df' =
    map (fun r : labelled_row =>
           (fst r,
            row_set c (fillna (series_median (column_values c (rows df)))
                              (snd r c)) (snd r)))
        (rows df).
Proof.
  unfold fillna_median. intros H. bind_inv H.
  apply get_column_inv in E. destruct E as [Hc ->].
  inversion H; subst; simpl. auto.
Qed.

Section Placeholder.

Variable orig : list labelled_row.
Variable column : string.

Lemma fillna_median_step (filled : string -> bool) (cur cur' : DataFrame)
  (c : string) :
  Forall2 (placeholder_rel orig filled) orig (rows cur) ->
  fillna_median cur c = Some cur' ->
  Forall2 (placeholder_rel orig
             (fun c' => String.eqb c' c || filled c'))
          orig (rows cur').
Proof.
  intros Hinv Hfill.
  apply fillna_median_inv in Hfill. destruct Hfill as [_ [_ Hrows]].
  rewrite Hrows. apply Forall2_map_r.
  set (m := series_median (column_values c orig)).
  assert (Hcol : column_values c (rows cur) =
                 map (fun v => if filled c then fillna m v else v)
                     (column_values c orig)).
  { apply column_values_rel. eapply Forall2_weaken; [|exact Hinv].
    intros r r' [_ Hc]. rewrite (Hc c). reflexivity. }
  eapply Forall2_weaken; [|exact Hinv].
  intros r r' [Hl Hc]. split; [exact Hl|]. intros c'. simpl.
  destruct (String.eqb c' c) eqn:E; simpl.
  - apply String.eqb_eq in E. subst c'. rewrite row_set_same, (Hc c).
    fold m. rewrite Hcol. destruct (filled c).
    + apply fillna_fillna. intros Hnone. rewrite Hnone.
      rewrite (map_ext _ (fun v => v) fillna_None), map_id. exact Hnone.
    + rewrite map_id. reflexivity.
  - apply String.eqb_neq in E. rewrite row_set_other by exact E.
    apply Hc.
Qed.

Lemma fill_others_inv :
  forall (cs : list string) (filled : string -> bool) (cur temp : DataFrame),
    Forall2 (placeholder_rel orig filled) orig (rows cur) ->
    fill_others cur cs column = Some temp ->
    columns temp = columns cur /\
    Forall2 (placeholder_rel orig
               (fun c => (mem c cs && negb (String.eqb c column))
                         || filled c))
            orig (rows temp).
Proof.
  induction cs as [|c cs IH]; intros filled cur temp Hinv Hrun; simpl in Hrun.
  - inversion Hrun; subst. split; [reflexivity|]. exact Hinv.
  - destruct (String.eqb c column) eqn:Ec.
    + apply String.eqb_eq in Ec. subst c.
      destruct (IH _ _ _ Hinv Hrun) as [Hcols Hrows].
      split; [exact Hcols|].
      eapply Forall2_weaken; [|exact Hrows].
      intros r r' [Hl Hc]. split; [exact Hl|]. intros c'.
      rewrite (Hc c'). unfold mem. simpl.
      destruct (String.eqb c' column) eqn:E; simpl.
      * rewrite andb_false_r. reflexivity.
      * reflexivity.
    + bind_inv Hrun.
      pose proof (fillna_median_step filled cur d c Hinv E) as Hstep.
      destruct (IH _ _ _ Hstep Hrun) as [Hcols Hrows].
      apply fillna_median_inv in E. destruct E as [_ [Hcols' _]].
      split; [congruence|].
      eapply Forall2_weaken; [|exact Hrows].
      intros r r' [Hl Hc]. split; [exact Hl|]. intros c'.
      rewrite (Hc c'). unfold mem. simpl.
      destruct (String.eqb c' c) eqn:E'; simpl.
      * apply String.eqb_eq in E'. subst c'. rewrite Ec. simpl.
        rewrite orb_true_r. reflexivity.
      * destruct (existsb (String.eqb c') cs
                  && negb (String.eqb c' column)); reflexivity.
Qed.

End Placeholder.

(** ** numpy reductions *)

Lemma first_nan_lt :
  forall l i, first_nan l = Some i -> i < length l.
Proof.
  induction l as [|[q|] l IH]; intros i H; simpl in *.
  - discriminate.
  - destruct (first_nan l) as [j|]; simpl in H; inversion H; subst.
    specialize (IH j eq_refl). lia.
  - inversion H; subst. lia.
Qed.

Lemma first_nan_None_dropna :
  forall l, first_nan l = None -> l = map Some (dropna l).
Proof.
  induction l as [|[q|] l IH]; intros H; simpl in *.
  - reflexivity.
  - destruct (first_nan l); simpl in H; [discriminate|].
    f_equal. apply IH. reflexivity.
  - discriminate.
Qed.

Lemma dropna_length_le : forall l, length (dropna l) <= length l.
Proof.
  induction l as [|[q|] l IH]; simpl; lia.
Qed.

Section ArgBest.

Variable better : Q -> Q -> bool.
Hypothesis better_irrefl : forall x, better x x = false.
Hypothesis better_asym : forall x y, better x y = true -> better y x = false.
Hypothesis better_negtrans :
  forall x y z, better x y = false -> better y z = false -> better x z = false.

Lemma arg_best_None : forall l, arg_best better l = None -> l = [].
Proof.
  intros [|x t] H; [reflexivity|]. simpl in H.
  destruct (arg_best better t); [destruct (better _ _)|]; discriminate.
Qed.

Lemma arg_best_lt :
  forall l i, arg_best better l = Some i -> i < length l.
Proof.
  induction l as [|x t IH]; intros i H; simpl in *; [discriminate|].
  destruct (arg_best better t) as [j|].
  - specialize (IH j eq_refl).
    destruct (better (nth j t 0%Q) x); inversion H; subst; lia.
  - inversion H; subst. lia.
Qed.

Lemma arg_best_spec :
  forall l i,
    arg_best better l = Some i ->
    exists v, nth_error l i = Some v /\
      (forall j w, nth_error l j = Some w -> better w v = false) /\
      (forall j w, j < i -> nth_error l j = Some w -> better v w = true).
Proof.
  induction l as [|x t IH]; intros i H; simpl in H; [discriminate|].
  destruct (arg_best better t) as [j|] eqn:Ebest.
  - destruct (IH j eq_refl) as [v [Hv [Hmin Hfirst]]].
    assert (Hnth : nth j t 0%Q = v) by (apply nth_error_nth; exact Hv).
    rewrite Hnth in H. clear Hnth.
    destruct (better v x) eqn:Hb; inversion H; subst i.
    + exists v. split; [exact Hv|]. split.
      * intros [|k] w Hw; simpl in Hw.
        -- inversion Hw; subst. apply better_asym. exact Hb.
        -- eapply Hmin. exact Hw.
      * intros [|k] w Hlt Hw; simpl in Hw.
        -- inversion Hw; subst. exact Hb.
        -- eapply Hfirst; [|exact Hw]. lia.
    + exists x. split; [reflexivity|]. split.
      * intros [|k] w Hw; simpl in Hw.
        -- inversion Hw; subst. apply better_irrefl.
        -- eapply better_negtrans; [|exact Hb]. eapply Hmin. exact Hw.
      * intros k w Hlt. lia.
  - inversion H; subst. apply arg_best_None in Ebest. subst t.
    exists x. split; [reflexivity|]. split.
    + intros [|[|k]] w Hw; simpl in Hw; try discriminate.
      inversion Hw; subst. apply better_irrefl.
    + intros k w Hlt. lia.
Qed.

End ArgBest.

Lemma Qlt_bool_iff (x y : Q) : Qlt_bool x y = true <-> (x < y)%Q.
Proof.
  unfold Qlt_bool. rewrite negb_true_iff.
  destruct (Qle_bool y x) eqn:E.
  - apply Qle_bool_iff in E. split; [discriminate|].
    intros H. exfalso. eapply Qlt_not_le; eassumption.
  - split; [|reflexivity]. intros _. apply Qnot_le_lt. intros H.
    apply Qle_bool_iff in H. congruence.
Qed.

Lemma Qlt_bool_false_iff (x y : Q) : Qlt_bool x y = false <-> (y <= x)%Q.
Proof.
  unfold Qlt_bool. rewrite negb_false_iff. apply Qle_bool_iff.
Qed.

Lemma Qlt_bool_irrefl (x : Q) : Qlt_bool x x = false.
Proof. apply Qlt_bool_false_iff. apply Qle_refl. Qed.

Lemma Qlt_bool_asym (x y : Q) : Qlt_bool x y = true -> Qlt_bool y x = false.
Proof.
  rewrite Qlt_bool_iff, Qlt_bool_false_iff. apply Qlt_le_weak.
Qed.

Lemma Qlt_bool_negtrans (x y z : Q) :
  Qlt_bool x y = false -> Qlt_bool y z = false -> Qlt_bool x z = false.
Proof.
  rewrite !Qlt_bool_false_iff. intros H1 H2. eapply Qle_trans; eassumption.
Qed.

Lemma nth_error_map_Some {A : Type} (l : list A) (j : nat) (w : A) :
  nth_error (map Some l) j = Some (Some w) -> nth_error l j = Some w.
Proof.
  revert j. induction l as [|a l IH]; intros [|j] H; simpl in *;
    try discriminate.
  - inversion H; reflexivity.
  - apply IH. exact H.
Qed.

Lemma np_argmin_lt (l : list cell) (i : nat) :
  np_argmin l = Some i -> i < length l.
Proof.
  unfold np_argmin. destruct (first_nan l) as [j|] eqn:E; intros H.
  - inversion H; subst. eapply first_nan_lt. exact E.
  - apply arg_best_lt in H. pose proof (dropna_length_le l). lia.
Qed.

Lemma np_argmax_lt (l : list cell) (i : nat) :
  np_argmax l = Some i -> i < length l.
Proof.
  unfold np_argmax. destruct (first_nan l) as [j|] eqn:E; intros H.
  - inversion H; subst. eapply first_nan_lt. exact E.
  - apply arg_best_lt in H. pose proof (dropna_length_le l). lia.
Qed.

Lemma np_argmin_first_min (l : list cell) (i : nat) :
  first_nan l = None -> np_argmin l = Some i -> first_best Qlt l i.
Proof.
  intros Hnan H. unfold np_argmin in H. rewrite Hnan in H.
  apply arg_best_spec in H;
    [|exact Qlt_bool_irrefl | exact Qlt_bool_asym | exact Qlt_bool_negtrans].
  destruct H as [v [Hv [Hmin Hfirst]]].
  rewrite (first_nan_None_dropna l Hnan). exists v. split.
  - rewrite nth_error_map. rewrite Hv. reflexivity.
  - split.
    + intros j w Hw Hlt. apply nth_error_map_Some in Hw.
      apply Hmin in Hw. apply Qlt_bool_iff in Hlt. congruence.
    + intros j w Hlt Hw. apply nth_error_map_Some in Hw.
      apply Qlt_bool_iff. eapply Hfirst; eassumption.
Qed.

Lemma np_argmax_first_max (l : list cell) (i : nat) :
  first_nan l = None -> np_argmax l = Some i ->
  first_best (fun x y => (y < x)%Q) l i.
Proof.
  intros Hnan H. unfold np_argmax in H. rewrite Hnan in H.
  apply arg_best_spec in H.
  - destruct H as [v [Hv [Hmin Hfirst]]].
    rewrite (first_nan_None_dropna l Hnan). exists v. split.
    + rewrite nth_error_map. rewrite Hv. reflexivity.
    + split.
      * intros j w Hw Hlt. apply nth_error_map_Some in Hw.
        apply Hmin in Hw. apply Qlt_bool_iff in Hlt. congruence.
      * intros j w Hlt Hw. apply nth_error_map_Some in Hw.
        apply Qlt_bool_iff. eapply Hfirst; eassumption.
  - intros x. apply Qlt_bool_irrefl.
  - intros x y. apply Qlt_bool_asym.
  - intros x y z H1 H2. eapply Qlt_bool_negtrans; eassumption.
Qed.

Lemma list_sum_bounds (l : list nat) (lo hi : nat) :
  Forall (fun p => lo <= p <= hi) l ->
  lo * length l <= list_sum l <= hi * length l.
Proof.
  induction 1 as [|p l Hp _ IH]; simpl; lia.
Qed.

Lemma int_mean_bounds (l : list nat) (lo hi k : nat) :
  Forall (fun p => lo <= p <= hi) l ->
  int_mean l = Some k -> lo <= k <= hi.
Proof.
  intros Hall H. destruct l as [|p l]; [discriminate|].
  pose proof (list_sum_bounds (p :: l) lo hi Hall) as [Hlo Hhi].
  assert (Hn : length (p :: l) <> 0) by (simpl; lia).
  unfold int_mean in H.
  remember (list_sum (p :: l)) as s. remember (length (p :: l)) as n.
  injection H as <-.
  split.
  - apply Nat.div_le_lower_bound; [exact Hn | lia].
  - apply Nat.Div0.div_le_upper_bound. lia.
Qed.

(** ** The engine *)

Section EngineFacts.

Context {L : Libraries}.

Lemma KNN_predict_inv (dfm temp dff out : DataFrame) (c : string) (k : nat) :
  KNN_predict dfm temp dff c k = Some out ->
  exists y d p,
    get_column dff c = Some y /\ col_dtype dff c = Some d /\
    knn_fit_predict d k (drop_values dff c) y (drop_values temp c) = Some p /\
    length p = length (rows dfm) /\
    rows out = zip_with (fun (r : labelled_row) v =>
                           (fst r, row_set c v (snd r))) (rows dfm) p.
Proof.
  unfold KNN_predict, drop. intros H. bind_inv H.
  destruct (has_column dff c); [cbn [bind] in H | discriminate H].
  destruct (has_column temp c); [cbn [bind] in H | discriminate H].
  bind_inv H. bind_inv H.
  apply set_column_inv in H. destruct H as [Hlen Hrows].
  exists l, d, l0. auto.
Qed.

Lemma KNN_predict_frame (dfm temp dff out : DataFrame) (c : string)
  (k : nat) :
  KNN_predict dfm temp dff c k = Some out ->
  Forall2 (same_outside [c]) (rows dfm) (rows out).
Proof.
  intros H. apply KNN_predict_inv in H.
  destruct H as [y [d [p [_ [_ [_ [Hlen Hrows]]]]]]]. rewrite Hrows.
  eapply Forall2_weaken;
    [|apply (zip_with_Forall2 _ (fun _ => True)); [exact Hlen|]].
  - intros r r' [v [_ ->]]. split; [reflexivity|]. intros c' Hc'. simpl.
    apply row_set_other. intros ->. apply Hc'. left. reflexivity.
  - apply Forall_forall. auto.
Qed.

Lemma KNN_predict_observed (dfm temp dff out : DataFrame) (c : string)
  (k : nat) :
  knn_total_output L ->
  KNN_predict dfm temp dff c k = Some out ->
  Forall (observed_on [c]) (rows out).
Proof.
  intros Htotal H. apply KNN_predict_inv in H.
  destruct H as [y [d [p [_ [_ [Hknn [Hlen Hrows]]]]]]].
  apply Htotal in Hknn. rewrite Hrows. clear Hrows.
  revert p Hlen Hknn. induction (rows dfm) as [|r l IH];
    intros [|v p] Hlen Hp; simpl in *; try discriminate; constructor.
  - inversion Hp; subst. intros c' [<-|[]]. simpl.
    rewrite row_set_same. assumption.
  - inversion Hp; subst. apply IH; auto.
Qed.

Lemma KNN_predict_has_column (dfm temp dff out : DataFrame) (c : string)
  (k : nat) :
  KNN_predict dfm temp dff c k = Some out -> has_column dff c = true.
Proof.
  intros H. apply KNN_predict_inv in H.
  destruct H as [y [d [p [Hy _]]]]. apply get_column_inv in Hy. tauto.
Qed.

Lemma cv_candidate_length (df dff : DataFrame) (ti : nat) (c : string)
  (k : nat) (d : dtype) (acc acc' : list cell * list cell * rng) :
  col_dtype df c = Some d ->
  cv_candidate df dff ti c k acc = Some acc' ->
  length (score_list d acc') = S (length (score_list d acc)).
Proof.
  intros Hd H. unfold cv_candidate in H.
  destruct acc as [[RSS scores] g].
  destruct (shuffle_split dff ti g) as [[df_test df_train] g'].
  bind_inv H. rewrite Hd in H. cbn [bind] in H. bind_inv H. bind_inv H.
  unfold score_list.
  destruct (dtype_eqb d float64); inversion H; subst; simpl;
    rewrite ?length_app; simpl; lia.
Qed.

Lemma cv_candidates_length (df dff : DataFrame) (ti : nat) (c : string)
  (d : dtype) :
  col_dtype df c = Some d ->
  forall ks acc acc',
    cv_candidates df dff ti c ks acc = Some acc' ->
    length (score_list d acc') = length (score_list d acc) + length ks.
Proof.
  intros Hd. induction ks as [|k ks IH]; intros acc acc' H; simpl in H.
  - inversion H; subst. simpl. lia.
  - bind_inv H. apply IH in H.
    rewrite H, (cv_candidate_length _ _ _ _ _ _ _ _ Hd E). simpl. lia.
Qed.

Lemma k_grid_nth (i : nat) : i < 7 -> nth i k_grid 0 = 2 * i + 1.
Proof.
  intros Hi. do 7 (destruct i as [|i]; [reflexivity|]). lia.
Qed.

Lemma cv_repetition_inv (df dff : DataFrame) (ti : nat) (c : string)
  (bks bks' : list nat) (g g' : rng) :
  cv_repetition df dff ti c (bks, g) = Some (bks', g') ->
  exists p,
    bks' = bks ++ [p] /\ 1 <= p <= 7 /\ recorded_position df dff ti c p.
Proof.
  unfold cv_repetition. intros H. bind_inv H.
  destruct p as [[RSS scores] g1]. bind_inv H. bind_inv H.
  inversion H; subst. exists (n + 1).
  pose proof (cv_candidates_length _ _ _ _ _ E0 _ _ _ E) as Hlen.
  unfold score_list in Hlen. simpl in Hlen.
  assert (Hn : n < 7).
  { destruct (dtype_eqb d float64).
    - apply np_argmin_lt in E1. simpl in Hlen. lia.
    - apply np_argmax_lt in E1. simpl in Hlen. lia. }
  split; [reflexivity|]. split; [lia|].
  exists g, g', RSS, scores, d, n.
  split; [exact E|]. split; [exact E0|].
  split; [|split; [reflexivity | apply k_grid_nth; exact Hn]].
  destruct (dtype_eqb d float64); simpl in Hlen.
  - split; [exact Hlen|]. split; [exact E1|].
    intros Hnan. apply np_argmin_first_min; assumption.
  - split; [exact Hlen|]. split; [exact E1|].
    intros Hnan. apply np_argmax_first_max; assumption.
Qed.

Lemma cv_repetitions_inv (df dff : DataFrame) (ti : nat) (c : string) :
  forall n bks bks' g g',
    cv_repetitions df dff ti c n (bks, g) = Some (bks', g') ->
    exists recorded,
      bks' = bks ++ recorded /\ length recorded = n /\
      Forall (fun p => 1 <= p <= 7) recorded /\
      Forall (recorded_position df dff ti c) recorded.
Proof.
  induction n as [|n IH]; intros bks bks' g g' H; simpl in H.
  - inversion H; subst. exists []. rewrite app_nil_r. auto.
  - bind_inv H. destruct p as [bks1 g1].
    apply cv_repetition_inv in E. destruct E as [p [-> [Hp Hrec]]].
    apply IH in H. destruct H as [recorded [-> [Hlen [Hall Hrecs]]]].
    exists (p :: recorded). rewrite <- app_assoc. simpl.
    repeat split; [lia| |]; constructor; assumption.
Qed.

Lemma select_k_inv (df dff : DataFrame) (ti : nat) (c : string)
  (st st' : loop_state) (k : nat) :
  select_k df dff ti c st = Some (k, st') ->
  df_missing st' = df_missing st /\
  int_mean (best_ks st') = Some k /\
  exists recorded,
    best_ks st' = best_ks st ++ recorded /\ length recorded = 10 /\
    Forall (fun p => 1 <= p <= 7) recorded /\
    Forall (recorded_position df dff ti c) recorded.
Proof.
  unfold select_k. intros H. bind_inv H. destruct p as [bks' g'].
  bind_inv H. inversion H; subst; simpl.
  apply cv_repetitions_inv in E. auto.
Qed.

Lemma impute_column_inv (df dff : DataFrame) (ti : nat) (mc : list string)
  (st st' : loop_state) (t : string) :
  impute_column df dff ti mc st t = Some st' ->
  exists temp best_k st1,
    fill_others (df_missing st) mc t = Some temp /\
    select_k df dff ti t st = Some (best_k, st1) /\
    KNN_predict (df_missing st) temp dff t best_k = Some (df_missing st') /\
    best_ks st' = best_ks st1 /\ gen st' = gen st1.
Proof.
  unfold impute_column. intros H. bind_inv H. bind_inv H.
  destruct p as [best_k st1]. bind_inv H. inversion H; subst; simpl.
  exists d, best_k, st1.
  pose proof (select_k_inv _ _ _ _ _ _ _ E0) as [Hdfm _].
  rewrite Hdfm in E1. auto.
Qed.

Lemma same_outside_refl (cs : list string) (r : labelled_row) :
  same_outside cs r r.
Proof. split; auto. Qed.

Lemma same_outside_step (t : string) (todo : list string)
  (r r1 r' : labelled_row) :
  same_outside [t] r r1 -> same_outside todo r1 r' ->
  same_outside (t :: todo) r r'.
Proof.
  intros [Hl1 Hc1] [Hl2 Hc2]. split; [congruence|].
  intros c Hc. rewrite Hc2, Hc1; [reflexivity| |].
  - intros [<-|[]]. apply Hc. left. reflexivity.
  - intros Hin. apply Hc. right. exact Hin.
Qed.

Lemma observed_on_step (t : string) (todo : list string)
  (r1 r' : labelled_row) :
  observed_on [t] r1 -> same_outside todo r1 r' -> observed_on todo r' ->
  observed_on (t :: todo) r'.
Proof.
  intros H1 [_ Hsame] H2 c Hc.
  destruct (in_dec string_dec c todo) as [Hin|Hnin].
  - apply H2. exact Hin.
  - destruct Hc as [<-|Hin]; [|contradiction].
    rewrite Hsame by exact Hnin. apply H1. left. reflexivity.
Qed.

Lemma impute_columns_frame (df dff : DataFrame) (ti : nat)
  (mc : list string) :
  forall todo st st',
    impute_columns df dff ti mc st todo = Some st' ->
    Forall2 (same_outside todo) (rows (df_missing st))
            (rows (df_missing st')) /\
    Forall (fun c => has_column dff c = true) todo.
Proof.
  induction todo as [|t todo IH]; intros st st' H; simpl in H.
  - inversion H; subst. split; [|constructor].
    apply Forall2_same. apply same_outside_refl.
  - bind_inv H. apply IH in H. destruct H as [Hrows Hcols].
    apply impute_column_inv in E.
    destruct E as [temp [best_k [st1 [_ [_ [Hpred _]]]]]].
    split.
    + eapply Forall2_compose;
        [|eapply KNN_predict_frame; exact Hpred | exact Hrows].
      intros a b c. apply same_outside_step.
    + constructor; [|exact Hcols].
      eapply KNN_predict_has_column. exact Hpred.
Qed.

Section TotalOutput.

Hypothesis knn_never_nan : knn_total_output L.

Lemma impute_columns_observed (df dff : DataFrame) (ti : nat)
  (mc : list string) :
  forall todo st st',
    impute_columns df dff ti mc st todo = Some st' ->
    Forall (observed_on todo) (rows (df_missing st')).
Proof.
  induction todo as [|t todo IH]; intros st st' H; simpl in H.
  - inversion H; subst. apply Forall_forall. intros r _ c [].
  - bind_inv H.
    pose proof (IH _ _ H) as Hobs.
    apply impute_columns_frame in H. destruct H as [Hrows _].
    apply impute_column_inv in E.
    destruct E as [temp [best_k [st1 [_ [_ [Hpred _]]]]]].
    apply KNN_predict_observed in Hpred; [|exact knn_never_nan].
    revert Hobs Hpred. clear - Hrows.
    induction Hrows as [|r1 r' l1 l' Hr _ IHr]; intros Hobs Hpred.
    + constructor.
    + inversion Hobs; subst. inversion Hpred; subst.
      constructor; [|apply IHr; assumption].
      eapply observed_on_step; eassumption.
Qed.

End TotalOutput.

Lemma row_isnull_false (cols : list string) (r : labelled_row) :
  row_isnull cols r = false -> observed_on cols r.
Proof.
  unfold row_isnull. intros H c Hc Hnan.
  assert (Hex : existsb (fun c => isnan (snd r c)) cols = true).
  { apply existsb_exists. exists c. split; [exact Hc|].
    rewrite Hnan. reflexivity. }
  congruence.
Qed.

Lemma row_isnull_true (cols : list string) (r : labelled_row) :
  row_isnull cols r = true <-> exists c, In c cols /\ snd r c = NaN.
Proof.
  unfold row_isnull. rewrite existsb_exists. split.
  - intros [c [Hc Hn]]. exists c. split; [exact Hc|].
    destruct (snd r c); [discriminate | reflexivity].
  - intros [c [Hc Hn]]. exists c. split; [exact Hc|]. rewrite Hn.
    reflexivity.
Qed.

Lemma round_cells_label (cs : list string) :
  forall r, fst (round_cells cs r) = fst r.
Proof.
  induction cs as [|c cs IH]; intros r; simpl; [reflexivity|].
  rewrite IH. reflexivity.
Qed.



Lemma round_columns_rows :
  forall cs df df',
    round_columns df cs = Some df' ->
    rows df' = map (round_cells cs) (rows df).
Proof.
  induction cs as [|c cs IH]; intros df df' H; simpl in H.
  - inversion H; subst. rewrite (map_ext _ (fun r => r)), map_id; auto.
  - bind_inv H. apply IH in H. rewrite H.
    unfold round_column in E. destruct (has_column df c); [|discriminate].
    inversion E; subst; simpl. rewrite map_map. reflexivity.
Qed.

Lemma KNN_fill_inv (g : rng) (df out : DataFrame) (mc : list string) :
  KNN_fill g df mc = Some out ->
  exists st,
    KNN_fill_loop g df mc = Some st /\
    Permutation (weave (row_isnull (column_names df)) (rows df)
                       (rows (df_missing st)))
                (rows out) /\
    Forall2 (same_outside mc) (rows (missing_part df))
            (rows (df_missing st)) /\
    Forall (fun c => In c (column_names df)) mc.
Proof.
  unfold KNN_fill. intros H. bind_inv H. inversion H; subst; clear H.
  exists l. split; [reflexivity|].
  unfold KNN_fill_loop in E. apply impute_columns_frame in E.
  destruct E as [Hrows Hcols]. simpl in Hrows.
  split; [|split].
  - simpl. eapply perm_trans;
      [|apply Permutation_sym, sort_rows_Permutation].
    eapply weave_Permutation. exact Hrows.
  - exact Hrows.
  - eapply Forall_impl; [|exact Hcols]. intros c Hc.
    apply has_column_In in Hc. exact Hc.
Qed.

Lemma Forall2_and_Forall_r {A B : Type} (R : A -> B -> Prop)
  (P : B -> Prop) :
  forall l l',
    Forall2 R l l' -> Forall P l' -> Forall2 (fun a b => R a b /\ P b) l l'.
Proof.
  intros l l' H. induction H; intros HP; inversion HP; subst;
    constructor; auto.
Qed.


Lemma Forall2_labels (cs : list string) :
  forall l l' : list labelled_row,
    Forall2 (same_outside cs) l l' -> map fst l' = map fst l.
Proof.
  intros l l' H. induction H as [|r r' l l' [Hl _] _ IH]; simpl;
    [reflexivity|]. congruence.
Qed.

Lemma NoDup_app_disjoint {A : Type} :
  forall l1 l2 : list A,
    NoDup (l1 ++ l2) -> forall a, In a l1 -> ~ In a l2.
Proof.
  induction l1 as [|x l1 IH]; intros l2 Hnd a Hin; [destruct Hin|].
  simpl in Hnd. inversion Hnd as [|? ? Hx Hnd']; subst.
  destruct Hin as [<-|Hin].
  - intros Hin2. apply Hx. apply in_or_app. right. exact Hin2.
  - apply IH; assumption.
Qed.

Lemma increasing_NoDup :
  forall l, StronglySorted Z.lt l -> NoDup l.
Proof.
  induction 1 as [|a l _ IH Hall]; constructor; [|exact IH].
  intros Hin. rewrite Forall_forall in Hall. specialize (Hall _ Hin). lia.
Qed.


(** C6. For an input whose row labels increase along the rows: the
    fully-observed subset and the missing subset together hold every input
    row exactly once, their labels are disjoint and together are exactly the
    input's labels, and the merged output of a completed run has the input's
    row count and its rows in the input's order. *)
Theorem partition_exact_and_order_kept (g : rng) (df out : DataFrame)
  (mc : list string) :
  Z_increasing (index df) = true ->
  KNN_fill g df mc = Some out ->
  Permutation (rows df)
              (rows (filled_part df) ++ rows (missing_part df)) /\
  (forall i, In i (index (filled_part df)) ->
             ~ In i (index (missing_part df))) /\
  Permutation (index df)
              (index (filled_part df) ++ index (missing_part df)) /\
  length (rows out) = length (rows df) /\
  index out = index df.
Proof.
  intros Hinc Hrun. apply Z_increasing_sorted in Hinc.
  split; [apply filter_partition_Permutation|].
  assert (Hpart : Permutation (index df)
                    (index (filled_part df) ++ index (missing_part df))).
  { unfold index. rewrite <- map_app. apply Permutation_map.
    apply filter_partition_Permutation. }
  assert (Hout : index out = index df).
  { unfold KNN_fill in Hrun. bind_inv Hrun. inversion Hrun; subst.
    unfold KNN_fill_loop in E. apply impute_columns_frame in E.
    destruct E as [Hframe _]. apply Forall2_labels in Hframe.
    apply sorted_Permutation_unique; [apply sort_rows_sorted|exact Hinc|].
    unfold index. simpl.
    eapply perm_trans; [apply Permutation_map, sort_rows_Permutation|].
    eapply perm_trans; [|apply Permutation_sym; exact Hpart].
    rewrite map_app. apply Permutation_app; [apply Permutation_refl|].
    match goal with
    | |- Permutation ?a ?b =>
        assert (Heq : a = b) by exact Hframe; rewrite Heq
    end.
    apply Permutation_refl. }
  split; [|split; [exact Hpart|split; [|exact Hout]]].
  - apply NoDup_app_disjoint.
    eapply Permutation_NoDup; [exact Hpart|].
    apply increasing_NoDup. exact Hinc.
  - apply (f_equal (@length Z)) in Hout. unfold index in Hout.
    rewrite !length_map in Hout. exact Hout.
Qed.

(** C7. The placeholder loop for target column [t] returns a frame with the
    schema and labels of the missing subset in which every registered column
    other than [t] has each missing entry replaced by the median of that
    column over the missing subset itself, column [t] is cell for cell what
    it was, and so is every column that is not registered. *)
Theorem placeholder_fill_keeps_target (dfm temp : DataFrame)
  (mc : list string) (t : string) :
  fill_others dfm mc t = Some temp ->
  columns temp = columns dfm /\
  Forall2 (fun r r' : labelled_row =>
             fst r' = fst r /\
             snd r' t = snd r t /\
             (forall c, In c mc -> c <> t ->
                snd r' c =
                fillna (series_median (column_values c (rows dfm)))
                       (snd r c)) /\
             (forall c, ~ In c mc -> snd r' c = snd r c))
          (rows dfm) (rows temp).
Proof.
  intros Hfill.
  destruct (fill_others_inv (rows dfm) t mc (fun _ => false) dfm temp)
    as [Hcols Hrows]; [|exact Hfill|].
  { apply Forall2_same. intros r. split; reflexivity. }
  split; [exact Hcols|].
  eapply Forall2_weaken; [|exact Hrows].
  intros r r' [Hl Hc]. split; [exact Hl|]. split; [|split].
  - rewrite (Hc t), String.eqb_refl. simpl.
    rewrite andb_false_r. reflexivity.
  - intros c Hin Hne. rewrite (Hc c).
    apply mem_In in Hin. rewrite Hin.
    apply String.eqb_neq in Hne. rewrite Hne. reflexivity.
  - intros c Hnin. rewrite (Hc c).
    apply mem_not_In in Hnin. rewrite Hnin. reflexivity.
Qed.

(** C8, as the code has it. A row is placed in the missing subset exactly
    when at least one column of the frame, registered or not, is missing in
    it, and in the fully-observed subset exactly when no column of the frame
    is missing in it. *)
Theorem partition_by_any_column (df : DataFrame) (r : labelled_row) :
  (In r (rows (missing_part df)) <->
   In r (rows df) /\ exists c, In c (column_names df) /\ snd r c = NaN) /\
  (In r (rows (filled_part df)) <->
   In r (rows df) /\ forall c, In c (column_names df) -> snd r c <> NaN).
Proof.
  unfold missing_part, filled_part, select_rows; simpl.
  rewrite !filter_In. split.
  - rewrite row_isnull_true. reflexivity.
  - split; intros [Hin H]; (split; [exact Hin|]).
    + apply negb_true_iff in H. apply row_isnull_false. exact H.
    + apply negb_true_iff.
      destruct (row_isnull (column_names df) r) eqn:E; [|reflexivity].
      apply row_isnull_true in E. destruct E as [c [Hc Hn]].
      exfalso. exact (H c Hc Hn).
Qed.



Lemma impute_column_positions (df dff : DataFrame) (ti : nat)
  (mc : list string) (st st' : loop_state) (t : string) :
  Forall (fun p => 1 <= p <= 7) (best_ks st) ->
  impute_column df dff ti mc st t = Some st' ->
  Forall (fun p => 1 <= p <= 7) (best_ks st').
Proof.
  intros Hall H. apply impute_column_inv in H.
  destruct H as [temp [best_k [st1 [_ [Hsel [_ [Hbks _]]]]]]].
  apply select_k_inv in Hsel.
  destruct Hsel as [_ [_ [recorded [Happ [_ [Hrange _]]]]]].
  rewrite Hbks, Happ. apply Forall_app. auto.
Qed.

Lemma impute_columns_positions (df dff : DataFrame) (ti : nat)
  (mc : list string) :
  forall todo st st',
    Forall (fun p => 1 <= p <= 7) (best_ks st) ->
    impute_columns df dff ti mc st todo = Some st' ->
    Forall (fun p => 1 <= p <= 7) (best_ks st').
Proof.
  induction todo as [|t todo IH]; intros st st' Hall H; simpl in H.
  - inversion H; subst. exact Hall.
  - bind_inv H. eapply IH; [|exact H].
    eapply impute_column_positions; eassumption.
Qed.

(** C10. In any run, after any number of processed columns, the neighbour
    count that the selection hands to the final model of the next column
    lies between 1 and 7, as does every recorded position; it is therefore
    never 9, 11 or 13. *)
Theorem neighbour_count_between_1_and_7 (g : rng) (df : DataFrame)
  (mc processed : list string) (t : string) (st st' : loop_state)
  (best_k : nat) :
  let df_filled := filled_part df in
  let test_ind := test_size (length (rows df_filled)) in
  impute_columns df df_filled test_ind mc (initial_state df g) processed
  = Some st ->
  select_k df df_filled test_ind t st = Some (best_k, st') ->
  1 <= best_k <= 7 /\
  ~ In best_k [9; 11; 13] /\
  Forall (fun p => 1 <= p <= 7) (best_ks st').
Proof.
  intros df_filled test_ind Hloop Hsel.
  apply impute_columns_positions in Hloop; [|constructor].
  apply select_k_inv in Hsel.
  destruct Hsel as [_ [Hmean [recorded [Happ [_ [Hrange _]]]]]].
  assert (Hall : Forall (fun p => 1 <= p <= 7) (best_ks st')).
  { rewrite Happ. apply Forall_app. auto. }
  pose proof (int_mean_bounds _ _ _ _ Hall Hmean) as Hk.
  split; [exact Hk|]. split; [|exact Hall].
  simpl. intros [H|[H|[H|[]]]]; lia.
Qed.

End EngineFacts.

(** ** The reference model of the libraries *)

Lemma insert_by_dist_length (p : Q * Q) :
  forall l, length (insert_by_dist p l) = S (length l).
Proof.
  induction l as [|p' l IH]; simpl; [reflexivity|].
  destruct (Qle_bool (fst p) (fst p')); simpl; [reflexivity|].
  rewrite IH. reflexivity.
Qed.

Lemma sort_by_dist_length :
  forall l, length (fold_right insert_by_dist [] l) = length l.
Proof.
  induction l as [|p l IH]; simpl; [reflexivity|].
  rewrite insert_by_dist_length, IH. reflexivity.
Qed.

Lemma Qinsert_length (x : Q) :
  forall l, length (Qinsert x l) = S (length l).
Proof.
  induction l as [|y l IH]; simpl; [reflexivity|].
  destruct (Qle_bool x y); simpl; [reflexivity|].
  rewrite IH. reflexivity.
Qed.

Lemma Qsort_length : forall l, length (Qsort l) = length l.
Proof.
  induction l as [|x l IH]; simpl; [reflexivity|].
  rewrite Qinsert_length, IH. reflexivity.
Qed.

Lemma zip_with_length {A B C : Type} (f : A -> B -> C) :
  forall l l', length l = length l' -> length (zip_with f l l') = length l.
Proof.
  induction l as [|a l IH]; intros [|b l'] H; simpl in *;
    try discriminate; [reflexivity|].
  rewrite IH; [reflexivity | lia].
Qed.

Lemma neighbours_length (k : nat) (X : list (list Q)) (y x : list Q) :
  length X = length y -> k <= length X ->
  length (neighbours k X y x) = k.
Proof.
  intros Hlen Hk. unfold neighbours.
  rewrite length_map, length_firstn, sort_by_dist_length, zip_with_length
    by exact Hlen.
  lia.
Qed.

Lemma Qmean_observed (l : list Q) : l <> [] -> Qmean l <> NaN.
Proof.
  destruct l; [congruence|]. simpl. discriminate.
Qed.

Lemma vote_observed (l : list Q) : l <> [] -> vote l <> NaN.
Proof.
  intros Hne. unfold vote.
  destruct (Qsort l) as [|v t] eqn:E; [|discriminate].
  exfalso. apply Hne. apply length_zero_iff_nil.
  rewrite <- Qsort_length, E. reflexivity.
Qed.

Lemma reference_never_nan : knn_total_output reference_libs.
Proof.
  intros d k X y X' p H. simpl in H. unfold knn_model in H.
  bind_inv H. bind_inv H. bind_inv H.
  cbv zeta in H.
  destruct ((k =? 0) || (length l <? k) || negb (length l =? length l0)
            || (length l1 =? 0)
            || negb (same_width (length (hd [] l)) l
                     && same_width (length (hd [] l)) l1)) eqn:Hchk;
    [discriminate|].
  apply orb_false_iff in Hchk. destruct Hchk as [Hchk _].
  apply orb_false_iff in Hchk. destruct Hchk as [Hchk _].
  apply orb_false_iff in Hchk. destruct Hchk as [Hchk Hlen].
  apply orb_false_iff in Hchk. destruct Hchk as [Hk0 Hk].
  apply Nat.eqb_neq in Hk0. apply Nat.ltb_ge in Hk.
  apply negb_false_iff, Nat.eqb_eq in Hlen.
  inversion H; subst. apply Forall_forall. intros v Hv.
  apply in_map_iff in Hv. destruct Hv as [x [<- _]].
  assert (Hne : neighbours k l l0 x <> []).
  { intros Hnil. apply (f_equal (@length Q)) in Hnil.
    rewrite neighbours_length in Hnil by assumption. simpl in Hnil. lia. }
  destruct d; [apply Qmean_observed | apply vote_observed]; exact Hne.
Qed.

(** ** Instances on the example frames *)


Lemma partition_exact_and_order_kept_witness :
  exists out,
    Z_increasing (index listings) = true /\
    KNN_fill (L := reference_libs) 0 listings listings_missing_columns
    = Some out /\
    Permutation (rows listings)
                (rows (filled_part listings)
                 ++ rows (missing_part listings)) /\
    (forall i, In i (index (filled_part listings)) ->
               ~ In i (index (missing_part listings))) /\
    Permutation (index listings)
                (index (filled_part listings)
                 ++ index (missing_part listings)) /\
    length (rows out) = length (rows listings) /\
    index out = index listings.
Proof.
  eexists. split; [reflexivity|]. split.
  - vm_compute. reflexivity.
  - apply (partition_exact_and_order_kept (L := reference_libs) 0 listings
             _ listings_missing_columns).
    + reflexivity.
    + vm_compute. reflexivity.
Defined.

Lemma placeholder_fill_keeps_target_witness :
  exists temp,
    fill_others (missing_part listings) listings_missing_columns "bedrooms"
    = Some temp /\
    columns temp = columns (missing_part listings) /\
    Forall2 (fun r r' : labelled_row =>
               fst r' = fst r /\
               snd r' "bedrooms" = snd r "bedrooms" /\
               (forall c, In c listings_missing_columns -> c <> "bedrooms" ->
                  snd r' c =
                  fillna (series_median
                            (column_values c (rows (missing_part listings))))
                         (snd r c)) /\
               (forall c, ~ In c listings_missing_columns ->
                  snd r' c = snd r c))
            (rows (missing_part listings)) (rows temp).
Proof.
  eexists. split.
  - vm_compute. reflexivity.
  - apply placeholder_fill_keeps_target. vm_compute. reflexivity.
Defined.


Lemma neighbour_count_between_1_and_7_witness :
  let df_filled := filled_part listings in
  let ti := test_size (length (rows df_filled)) in
  exists st best_k st',
    impute_columns (L := reference_libs) listings df_filled ti
                   listings_missing_columns
                   (initial_state (L := reference_libs) listings 0)
                   ["bedrooms"]
    = Some st /\
    select_k listings df_filled ti "beds" st = Some (best_k, st') /\
    1 <= best_k <= 7 /\
    ~ In best_k [9; 11; 13] /\
    Forall (fun p => 1 <= p <= 7) (best_ks st').
Proof.
  intros df_filled ti. do 3 eexists. split; [|split].
  - vm_compute. reflexivity.
  - vm_compute. reflexivity.
  - eapply (neighbour_count_between_1_and_7 (L := reference_libs) 0 listings
             listings_missing_columns ["bedrooms"] "beds").
    + vm_compute. reflexivity.
    + vm_compute. reflexivity.
Defined.

(** C6 as stated fails on the code: the merged output is sorted by label,
    whatever the order of the input. On the twenty-three listings given last
    first the run completes and returns all twenty-three rows, in the order
    of their labels 0, ..., 22, which is the reverse of the input's order.
    And where two rows carry one label, as in [twins], that label is in the
    fully-observed subset and in the missing subset at once. *)
Lemma order_not_kept_on_decreasing_labels :
  (exists out,
     KNN_fill (L := reference_libs) 0 rev_listings listings_missing_columns
     = Some out /\
     length (rows out) = length (rows rev_listings) /\
     index out = index listings /\
     index out <> index rev_listings) /\
  In 4%Z (index (filled_part twins)) /\
  In 4%Z (index (missing_part twins)).
Proof.
  split.
  - eexists. split; [vm_compute; reflexivity|].
    split; [reflexivity|]. split; [reflexivity|].
    intros H. vm_compute in H. discriminate H.
  - split; simpl; left; reflexivity.
Qed.

(** C8 as stated fails on the code: the only listing of [lonely] misses
    nothing but [latitude], which is not registered, and yet it is placed in
    the missing subset. *)
Lemma partition_not_by_registered_columns :
  ~ (In lonely_listing (rows (missing_part lonely)) <->
     exists c, In c ["bedrooms"] /\ snd lonely_listing c = NaN).
Proof.
  intros [Hto _].
  destruct Hto as [c [Hc Hnan]].
  - simpl. left. reflexivity.
  - destruct Hc as [<-|[]]. discriminate Hnan.
Qed.

(** C2 on the example listings. The ten repetitions for [bedrooms] record
    the positions 7, 4, 1, 7, 3, 2, 6, 3, 1, 6; the ten repetitions for
    [beds], the second column, record position 1 every time, whose truncated
    mean is 1; the neighbour count selected for [beds] is 2, the truncated
    mean of all twenty positions. *)
Theorem second_column_averages_all_positions :
  let df_filled := filled_part listings in
  let ti := test_size (length (rows df_filled)) in
  exists st1 st2 best_k,
    impute_column (L := reference_libs) listings df_filled ti
                  listings_missing_columns
                   (initial_state (L := reference_libs) listings 0)
                  "bedrooms"
    = Some st1 /\
    select_k listings df_filled ti "beds" st1 = Some (best_k, st2) /\
    best_ks st1 = [7; 4; 1; 7; 3; 2; 6; 3; 1; 6] /\
    best_ks st2 = best_ks st1 ++ repeat 1 10 /\
    int_mean (repeat 1 10) = Some 1 /\
    best_k = 2.
Proof.
  intros df_filled ti. do 3 eexists. split; [|split].
  - vm_compute. reflexivity.
  - vm_compute. reflexivity.
  - repeat split; vm_compute; reflexivity.
Qed.

(** C3 on the example listings. In the first repetition for [bedrooms] the
    candidate 1 is scored on the shuffle drawn in generator state 0, whose
    test rows are the listings 0, 1, 2, 3, 4, 6, and leaves the generator in
    state 1; the candidate 3 is scored on the next shuffle, whose test rows
    are the listings 1, 2, 3, 4, 6, 7; a whole repetition draws seven
    shuffles. *)
Theorem each_candidate_draws_its_own_split :
  let df_filled := filled_part listings in
  let ti := test_size (length (rows df_filled)) in
  exists RSS1 RSS2,
    cv_candidate (L := reference_libs) listings df_filled ti "bedrooms" 1
                 ([], [], 0)
    = Some (RSS1, [], 1) /\
    cv_candidate (L := reference_libs) listings df_filled ti "bedrooms" 3
                 (RSS1, [], 1)
    = Some (RSS2, [], 2) /\
    index (fst (fst (shuffle_split (L := reference_libs) df_filled ti 0)))
    = [0; 1; 2; 3; 4; 6]%Z /\
    index (fst (fst (shuffle_split (L := reference_libs) df_filled ti 1)))
    = [1; 2; 3; 4; 6; 7]%Z /\
    option_map snd
      (cv_repetition (L := reference_libs) listings df_filled ti "bedrooms"
                     ([], 0))
    = Some 7.
Proof.
  intros df_filled ti. do 2 eexists. split; [|split].
  - vm_compute. reflexivity.
  - vm_compute. reflexivity.
  - repeat split; vm_compute; reflexivity.
Qed.

(** C5 on the example listings. Listing 5 lacks [bedrooms] only, so it is in
    the missing subset with its observed [beds] of 100; in the output of the
    main function, before any rounding, its [beds] is the prediction 7. *)
Theorem observed_target_overwritten :
  let beds_of (l : list labelled_row) :=
    map (fun r : labelled_row => snd r "beds")
        (filter (fun r : labelled_row => Z.eqb (fst r) 5) l) in
  beds_of (rows (missing_part listings)) = [num 100] /\
  option_map (fun out => beds_of (rows out))
             (KNN_fill (L := reference_libs) 0 listings
                       listings_missing_columns)
  = Some [num 7].
Proof.
  split; vm_compute; reflexivity.
Qed.

(** * Further properties of the engine *)

Lemma StronglySorted_map_inv {A B : Type} (R : B -> B -> Prop) (f : A -> B) :
  forall l,
    StronglySorted R (map f l) ->
    StronglySorted (fun a b => R (f a) (f b)) l.
Proof.
  induction l as [|a l IH]; simpl; intros H; [constructor|].
  inversion H as [|? ? Hs Hall]; subst. constructor; [auto|].
  rewrite Forall_map in Hall. exact Hall.
Qed.

Lemma sorted_Permutation_unique_key {A : Type} (key : A -> Z) :
  forall l1 l2,
    StronglySorted (fun a b => (key a <= key b)%Z) l1 ->
    StronglySorted (fun a b => (key a < key b)%Z) l2 ->
    Permutation l1 l2 -> l1 = l2.
Proof.
  induction l1 as [|a l1 IH]; intros l2 H1 H2 Hp.
  - apply Permutation_nil in Hp. subst. reflexivity.
  - destruct l2 as [|b l2].
    + apply Permutation_sym, Permutation_nil in Hp. discriminate.
    + inversion H1 as [|? ? H1' Ha]; subst.
      inversion H2 as [|? ? H2' Hb]; subst.
      assert (a = b).
      { assert (Hin1 : In a (b :: l2))
          by (eapply Permutation_in; [exact Hp | left; reflexivity]).
        assert (Hin2 : In b (a :: l1))
          by (eapply Permutation_in;
              [apply Permutation_sym; exact Hp | left; reflexivity]).
        rewrite Forall_forall in Ha, Hb.
        destruct Hin1 as [->|Hin1]; [reflexivity|].
        destruct Hin2 as [->|Hin2]; [reflexivity|].
        specialize (Ha _ Hin2). specialize (Hb _ Hin1). lia. }
      subst b. f_equal. apply IH; auto.
      eapply Permutation_cons_inv. exact Hp.
Qed.

Lemma weave_labels (p : labelled_row -> bool) (cs : list string) :
  forall l b,
    Forall2 (same_outside cs) (filter p l) b ->
    map fst (weave p l b) = map fst l.
Proof.
  induction l as [|x l IH]; intros b H; simpl in *; [reflexivity|].
  destruct (p x) eqn:Hp.
  - inversion H as [|? y ? b' [Hl _] Hrest]; subst. simpl.
    rewrite Hl. f_equal. apply IH. exact Hrest.
  - simpl. f_equal. apply IH. exact H.
Qed.

Lemma Forall2_filter_l {A B : Type} (p : A -> bool) (R : A -> B -> Prop) :
  forall l b,
    Forall2 R (filter p l) b ->
    Forall2 (fun x y => R x y /\ p x = true) (filter p l) b.
Proof.
  induction l as [|x l IH]; intros b H; simpl in *.
  - inversion H; subst. constructor.
  - destruct (p x) eqn:Hp; [|apply IH; exact H].
    inversion H; subst. constructor; auto.
Qed.

Lemma sort_rows_of_increasing (l : list labelled_row) :
  StronglySorted Z.lt (map fst l) -> fold_right insert_by_index [] l = l.
Proof.
  intros Hinc.
  apply (sorted_Permutation_unique_key (fun r : labelled_row => fst r)).
  - apply StronglySorted_map_inv with (R := Z.le) (f := fst).
    apply sort_rows_sorted.
  - apply StronglySorted_map_inv with (R := Z.lt) (f := fst). exact Hinc.
  - apply sort_rows_Permutation.
Qed.

Section EngineExtras.

Context {L : Libraries}.

Lemma KNN_fill_rows_woven (g : rng) (df out : DataFrame) (mc : list string) :
  Z_increasing (index df) = true ->
  KNN_fill g df mc = Some out ->
  exists st,
    KNN_fill_loop g df mc = Some st /\
    Forall2 (same_outside mc) (rows (missing_part df))
            (rows (df_missing st)) /\
    rows out = weave (row_isnull (column_names df)) (rows df)
                     (rows (df_missing st)).
Proof.
  intros Hinc Hrun. apply Z_increasing_sorted in Hinc.
  unfold KNN_fill in Hrun. bind_inv Hrun. inversion Hrun; subst; clear Hrun.
  exists l. split; [reflexivity|].
  pose proof E as Hloop. unfold KNN_fill_loop in Hloop.
  apply impute_columns_frame in Hloop. destruct Hloop as [Hframe _].
  simpl in Hframe. split; [exact Hframe|]. simpl.
  apply (sorted_Permutation_unique_key (fun r : labelled_row => fst r)).
  - apply StronglySorted_map_inv with (R := Z.le) (f := fst).
    apply sort_rows_sorted.
  - apply StronglySorted_map_inv with (R := Z.lt) (f := fst).
    rewrite (weave_labels _ mc) by exact Hframe. exact Hinc.
  - eapply perm_trans; [apply sort_rows_Permutation|].
    apply Permutation_sym. eapply weave_Permutation. exact Hframe.
Qed.

(** X1. On a frame whose labels increase along the rows, the output of a
    completed run of the main function is aligned with the input row by row:
    each output row carries the label of the input row at the same place and
    differs from it in registered columns only, and a row without any
    missing value is returned exactly as it was. *)
Theorem output_rows_aligned (g : rng) (df out : DataFrame)
  (mc : list string) :
  Z_increasing (index df) = true ->
  KNN_fill g df mc = Some out ->
  Forall2 (fun r r' =>
             same_outside mc r r' /\
             (row_isnull (column_names df) r = false -> r' = r))
          (rows df) (rows out).
Proof.
  intros Hinc Hrun.
  destruct (KNN_fill_rows_woven g df out mc Hinc Hrun)
    as [st [_ [Hframe Hrows]]].
  rewrite Hrows. apply weave_Forall2.
  - intros r Hr. split; [apply same_outside_refl | reflexivity].
  - apply Forall2_filter_l in Hframe.
    eapply Forall2_weaken; [|exact Hframe].
    intros r r' [Hsame Hp]. split; [exact Hsame|]. congruence.
Qed.

(** X2. With no column registered, on a frame whose labels increase along
    the rows, the run completes and returns the rows and the schema of the
    input as they are, also after the rounding loop. *)
Theorem nothing_registered_nothing_changed (g : rng) (df : DataFrame) :
  Z_increasing (index df) = true ->
  exists out,
    KNN_fill g df [] = Some out /\ impute_run g df [] = Some out /\
    rows out = rows df /\ columns out = columns df.
Proof.
  intros Hinc.
  destruct (KNN_fill g df []) as [out|] eqn:Hrun; [|discriminate Hrun].
  exists out. split; [reflexivity|].
  split; [unfold impute_run; rewrite Hrun; reflexivity|].
  destruct (KNN_fill_rows_woven g df out [] Hinc Hrun)
    as [st [Hloop [Hframe Hrows]]].
  split.
  - rewrite Hrows. inversion Hloop; subst; simpl. clear.
    induction (rows df) as [|r l IH]; simpl; [reflexivity|].
    destruct (row_isnull (column_names df) r); simpl; f_equal; exact IH.
  - unfold KNN_fill in Hrun. inversion Hrun; subst. reflexivity.
Qed.

(** X3. A registered column that the frame does not have aborts the run:
    neither the main function nor the run with rounding returns a frame,
    whatever the other columns are. *)
Theorem absent_registered_column_aborts (g : rng) (df : DataFrame)
  (mc : list string) (c : string) :
  In c mc -> ~ In c (column_names df) ->
  KNN_fill g df mc = None /\ impute_run g df mc = None.
Proof.
  intros Hin Hnot.
  assert (Hfill : KNN_fill g df mc = None).
  { destruct (KNN_fill g df mc) as [out|] eqn:Hrun; [|reflexivity].
    exfalso. apply KNN_fill_inv in Hrun.
    destruct Hrun as [st [_ [_ [_ Hcols]]]].
    rewrite Forall_forall in Hcols. apply Hnot. apply Hcols. exact Hin. }
  split; [exact Hfill|]. unfold impute_run. rewrite Hfill. reflexivity.
Qed.

Lemma set_column_columns (df df' : DataFrame) (c : string) (d : dtype)
  (vals : list cell) :
  has_column df c = true ->
  set_column df c d vals = Some df' -> columns df' = columns df.
Proof.
  intros Hc. unfold set_column.
  destruct (Nat.eqb (length vals) (length (rows df))); [|discriminate].
  intros H. inversion H; subst; simpl. rewrite Hc. reflexivity.
Qed.

Lemma has_column_same_schema (df df' : DataFrame) (c : string) :
  columns df = columns df' -> has_column df c = has_column df' c.
Proof.
  intros H. unfold has_column, column_names. rewrite H. reflexivity.
Qed.

Lemma KNN_predict_columns (dfm temp dff out : DataFrame) (c : string)
  (k : nat) :
  columns dfm = columns dff ->
  KNN_predict dfm temp dff c k = Some out -> columns out = columns dfm.
Proof.
  intros Hschema H.
  pose proof (KNN_predict_has_column _ _ _ _ _ _ H) as Hc.
  rewrite <- (has_column_same_schema dfm dff c Hschema) in Hc.
  unfold KNN_predict in H. bind_inv H. bind_inv H. bind_inv H. bind_inv H.
  bind_inv H. eapply set_column_columns; eassumption.
Qed.

Lemma impute_columns_columns (df dff : DataFrame) (ti : nat)
  (mc : list string) :
  forall todo st st',
    columns (df_missing st) = columns dff ->
    impute_columns df dff ti mc st todo = Some st' ->
    columns (df_missing st') = columns dff.
Proof.
  induction todo as [|t todo IH]; intros st st' Hschema H; simpl in H.
  - inversion H; subst. exact Hschema.
  - bind_inv H. eapply IH; [|exact H].
    apply impute_column_inv in E.
    destruct E as [temp [best_k [st1 [_ [_ [Hpred _]]]]]].
    rewrite (KNN_predict_columns _ _ _ _ _ _ Hschema Hpred). exact Hschema.
Qed.

Lemma round_columns_columns :
  forall cs df df', round_columns df cs = Some df' -> columns df' = columns df.
Proof.
  induction cs as [|c cs IH]; intros df df' H; simpl in H.
  - inversion H; subst. reflexivity.
  - bind_inv H. apply IH in H. rewrite H.
    unfold round_column in E. destruct (has_column df c); [|discriminate].
    inversion E; subst. reflexivity.
Qed.

(** X4. The schema never changes: in a completed run the frame of missing
    rows leaves the main loop with the columns, in order and with their
    dtypes, of the input, so the final concatenation joins two frames of one
    schema, and the output has the schema of the input before and after the
    rounding loop. *)
Theorem schema_is_preserved (g : rng) (df out : DataFrame)
  (mc : list string) :
  impute_run g df mc = Some out ->
  columns out = columns df /\
  exists st clean,
    KNN_fill_loop g df mc = Some st /\
    columns (df_missing st) = columns df /\
    KNN_fill g df mc = Some clean /\ columns clean = columns df.
Proof.
  intros H. unfold impute_run in H. bind_inv H. rename d into clean.
  apply round_columns_columns in H.
  pose proof E as Hfill. unfold KNN_fill in E. bind_inv E.
  inversion E; subst; clear E. split; [rewrite H; reflexivity|].
  exists l, (sort_index (concat (filled_part df) (df_missing l))).
  split; [reflexivity|]. split; [|split; reflexivity].
  unfold KNN_fill_loop in E0.
  apply impute_columns_columns in E0; [exact E0 | reflexivity].
Qed.

Lemma cv_candidate_gen (df dff : DataFrame) (ti : nat) (c : string)
  (k : nat) (acc acc' : list cell * list cell * rng) :
  cv_candidate df dff ti c k acc = Some acc' ->
  snd acc' = next_gen dff (snd acc).
Proof.
  unfold cv_candidate, shuffle_split, next_gen.
  destruct acc as [[RSS scores] g]. simpl.
  destruct (sample g (rows dff)) as [sh g']. simpl. intros H.
  bind_inv H. bind_inv H. bind_inv H. bind_inv H.
  destruct (dtype_eqb d0 float64); inversion H; subst; reflexivity.
Qed.

Lemma cv_candidates_gen (df dff : DataFrame) (ti : nat) (c : string) :
  forall ks acc acc',
    cv_candidates df dff ti c ks acc = Some acc' ->
    snd acc' = Nat.iter (length ks) (next_gen dff) (snd acc).
Proof.
  induction ks as [|k ks IH]; intros acc acc' H; simpl in H.
  - inversion H; subst. reflexivity.
  - bind_inv H. apply IH in H. apply cv_candidate_gen in E.
    rewrite H, E. simpl length. rewrite Nat.iter_succ_r. reflexivity.
Qed.

Lemma cv_repetition_gen (df dff : DataFrame) (ti : nat) (c : string)
  (st st' : list nat * rng) :
  cv_repetition df dff ti c st = Some st' ->
  snd st' = Nat.iter (length k_grid) (next_gen dff) (snd st).
Proof.
  destruct st as [bks g]. unfold cv_repetition. intros H. bind_inv H.
  destruct p as [[RSS scores] g1]. apply cv_candidates_gen in E.
  bind_inv H. bind_inv H. inversion H; subst. exact E.
Qed.

Lemma cv_repetitions_gen (df dff : DataFrame) (ti : nat) (c : string) :
  forall n st st',
    cv_repetitions df dff ti c n st = Some st' ->
    snd st' = Nat.iter (n * 7) (next_gen dff) (snd st).
Proof.
  induction n as [|n IH]; intros st st' H.
  - simpl in H. inversion H; subst. reflexivity.
  - cbn [cv_repetitions] in H. bind_inv H. apply IH in H.
    apply cv_repetition_gen in E. rewrite H, E.
    change (length k_grid) with 7. rewrite <- Nat.iter_add.
    f_equal. lia.
Qed.

Lemma select_k_gen (df dff : DataFrame) (ti : nat) (c : string)
  (st st' : loop_state) (k : nat) :
  select_k df dff ti c st = Some (k, st') ->
  gen st' = Nat.iter 70 (next_gen dff) (gen st).
Proof.
  unfold select_k. intros H. bind_inv H. destruct p as [bks g'].
  bind_inv H. inversion H; subst. cbn [gen].
  apply cv_repetitions_gen in E. exact E.
Qed.

Lemma impute_columns_bookkeeping (df dff : DataFrame) (ti : nat)
  (mc : list string) :
  forall todo st st',
    impute_columns df dff ti mc st todo = Some st' ->
    gen st' = Nat.iter (70 * length todo) (next_gen dff) (gen st) /\
    exists recorded,
      best_ks st' = best_ks st ++ recorded /\
      length recorded = 10 * length todo.
Proof.
  induction todo as [|t todo IH]; intros st st' H; simpl in H.
  - inversion H; subst. rewrite Nat.mul_0_r. split; [reflexivity|].
    exists []. rewrite app_nil_r. auto.
  - bind_inv H. apply IH in H. destruct H as [Hgen [rec' [Hbks Hlen]]].
    apply impute_column_inv in E.
    destruct E as [temp [best_k [st1 [_ [Hsel [_ [Hb Hg]]]]]]].
    pose proof (select_k_gen _ _ _ _ _ _ _ Hsel) as Hgen1.
    apply select_k_inv in Hsel.
    destruct Hsel as [_ [_ [rec1 [Happ [Hlen1 _]]]]].
    split.
    + rewrite Hgen, Hg, Hgen1. simpl length.
      replace (70 * S (length todo)) with (70 * length todo + 70) by lia.
      rewrite Nat.iter_add. reflexivity.
    + exists (rec1 ++ rec'). rewrite Hbks, Hb, Happ, <- app_assoc.
      split; [reflexivity|]. rewrite length_app. simpl length. lia.
Qed.

(** X5. A completed run draws exactly seventy shuffles of the fully-observed
    rows for every registered column, one for each of the seven candidates
    in each of the ten repetitions: the generator it leaves behind is the
    initial one advanced by 70 times the number of registered columns
    draws. *)
Theorem seventy_draws_per_column (g : rng) (df : DataFrame)
  (mc : list string) (st : loop_state) :
  KNN_fill_loop g df mc = Some st ->
  gen st = Nat.iter (70 * length mc) (next_gen (filled_part df)) g.
Proof.
  intros H. unfold KNN_fill_loop in H.
  apply impute_columns_bookkeeping in H. destruct H as [H _]. exact H.
Qed.

(** X6. The recorded positions accumulate over the whole run: after the
    columns [processed], the selection for the next column appends its ten
    positions to the ten of each of them, and the neighbour count it returns
    is the truncated mean of all of these, whose number is ten times the
    rank of the column. *)
Theorem neighbour_count_averages_whole_run (g : rng) (df : DataFrame)
  (mc processed : list string) (t : string) (st st' : loop_state)
  (best_k : nat) :
  let df_filled := filled_part df in
  let test_ind := test_size (length (rows df_filled)) in
  impute_columns df df_filled test_ind mc (initial_state df g) processed
  = Some st ->
  select_k df df_filled test_ind t st = Some (best_k, st') ->
  length (best_ks st) = 10 * length processed /\
  firstn (length (best_ks st)) (best_ks st') = best_ks st /\
  length (best_ks st') = 10 * (length processed + 1) /\
  best_k = list_sum (best_ks st') / length (best_ks st').
Proof.
  intros df_filled test_ind Hloop Hsel.
  apply impute_columns_bookkeeping in Hloop.
  destruct Hloop as [_ [rec0 [Hbks Hlen]]]. simpl in Hbks. subst rec0.
  apply select_k_inv in Hsel.
  destruct Hsel as [_ [Hmean [rec1 [Happ [Hlen1 _]]]]].
  split; [exact Hlen|]. split; [|split].
  - rewrite Happ, firstn_app, Nat.sub_diag, firstn_all. simpl.
    apply app_nil_r.
  - rewrite Happ, length_app. lia.
  - unfold int_mean in Hmean. destruct (best_ks st') as [|p l].
    + discriminate.
    + inversion Hmean. reflexivity.
Qed.

(** X7. When every shuffle is a rearrangement of the rows, the split of one
    candidate divides the fully-observed rows between the test frame and the
    training frame, each row in exactly one of them: the test frame has
    [3 * n / 10] of the [n] rows (none when [n < 4]), the training frame the
    others, both with the schema of the fully-observed frame, and one draw is
    consumed. *)
Theorem split_divides_observed_rows (dff test train : DataFrame)
  (g g' : rng) :
  sample_permutes L ->
  shuffle_split dff (test_size (length (rows dff))) g = (test, train, g') ->
  Permutation (rows test ++ rows train) (rows dff) /\
  length (rows test) = 3 * length (rows dff) / 10 /\
  length (rows train) = length (rows dff) - 3 * length (rows dff) / 10 /\
  (rows test = [] <-> length (rows dff) < 4) /\
  columns test = columns dff /\ columns train = columns dff /\
  g' = next_gen dff g.
Proof.
  intros Hperm H. unfold shuffle_split, next_gen in *.
  specialize (Hperm g (rows dff)).
  destruct (sample g (rows dff)) as [sh g1]. simpl in Hperm.
  inversion H; subst; clear H. cbn [rows columns].
  pose proof (Permutation_length Hperm) as Hlen.
  assert (Hle : test_size (length (rows dff)) <= length sh).
  { unfold test_size. rewrite Hlen.
    apply Nat.Div0.div_le_upper_bound. lia. }
  assert (Htest : length (firstn (test_size (length (rows dff))) sh)
                  = 3 * length (rows dff) / 10).
  { rewrite length_firstn. unfold test_size in *. lia. }
  split; [rewrite firstn_skipn; exact Hperm|].
  split; [exact Htest|].
  split; [rewrite length_skipn; unfold test_size; lia|].
  split; [|auto].
  rewrite <- length_zero_iff_nil, Htest. split; intros H.
  - destruct (Nat.lt_ge_cases (length (rows dff)) 4) as [Hlt|Hge];
      [exact Hlt|].
    exfalso.
    assert (1 <= 3 * length (rows dff) / 10)
      by (apply Nat.div_le_lower_bound; lia).
    lia.
  - apply Nat.div_small. lia.
Qed.

Lemma Forall2_map_both {A B C : Type} (R : B -> C -> Prop) (f : A -> B)
  (h : A -> C) :
  (forall a, R (f a) (h a)) -> forall l, Forall2 R (map f l) (map h l).
Proof.
  intros HR l. induction l; simpl; constructor; auto.
Qed.

Lemma Qround_half_even_integer (z : Z) :
  Qround_half_even (inject_Z z) = inject_Z z.
Proof.
  unfold Qround_half_even. rewrite Qfloor_Z.
  assert (Hlt : (inject_Z z - inject_Z z < 1 # 2)%Q).
  { assert (Hz : (inject_Z z - inject_Z z == 0)%Q) by ring.
    rewrite Hz. reflexivity. }
  apply Qlt_alt in Hlt.
  change (Qcompare (inject_Z z - inject_Z z) (1 # 2) = Lt) in Hlt.
  rewrite Hlt. reflexivity.
Qed.

Lemma Qround_half_even_integral (x : Q) :
  exists z, Qround_half_even x = inject_Z z.
Proof.
  unfold Qround_half_even.
  destruct (Qcompare _ _); [destruct (Z.even _)| |]; eexists; reflexivity.
Qed.

Lemma cell_round_integral (v : cell) : integral (cell_round v).
Proof.
  destruct v as [x|]; simpl; [right | left; reflexivity].
  destruct (Qround_half_even_integral x) as [z Hz]. exists z. congruence.
Qed.

Lemma cell_round_idempotent (v : cell) :
  cell_round (cell_round v) = cell_round v.
Proof.
  destruct v as [x|]; simpl; [|reflexivity].
  destruct (Qround_half_even_integral x) as [z Hz].
  rewrite Hz, Qround_half_even_integer. reflexivity.
Qed.

Lemma round_cells_cell (c : string) :
  forall cs r,
    snd (round_cells cs r) c =
    if mem c cs then cell_round (snd r c) else snd r c.
Proof.
  induction cs as [|c' cs IH]; intros r; simpl; [reflexivity|].
  rewrite IH. simpl. unfold row_set, mem. simpl.
  destruct (String.eqb c c') eqn:E; simpl.
  - apply String.eqb_eq in E. subst c'.
    destruct (existsb (String.eqb c) cs);
      [apply cell_round_idempotent | reflexivity].
  - reflexivity.
Qed.

Lemma round_columns_succeeds :
  forall cs df,
    (forall c, In c cs -> has_column df c = true) ->
    exists df', round_columns df cs = Some df'.
Proof.
  induction cs as [|c cs IH]; intros df H; simpl.
  - eexists. reflexivity.
  - unfold round_column. rewrite (H c) by (left; reflexivity).
    cbn [bind]. apply IH. intros c' Hc'.
    unfold has_column, column_names. simpl.
    apply (H c'). right. exact Hc'.
Qed.

Lemma round_columns_has_columns :
  forall cs df df',
    round_columns df cs = Some df' ->
    forall c, In c cs -> has_column df c = true.
Proof.
  induction cs as [|c cs IH]; intros df df' H c' Hc'; simpl in H.
  - destruct Hc'.
  - bind_inv H. unfold round_column in E.
    destruct (has_column df c) eqn:Hc; [|discriminate].
    inversion E; subst; clear E.
    destruct Hc' as [<-|Hc']; [exact Hc|].
    apply (IH _ _ H c' Hc').
Qed.

Lemma rounding_loop_facts (df df1 : DataFrame) (cs : list string) :
  round_columns df cs = Some df1 ->
  Forall (fun r : labelled_row =>
            forall c, In c cs -> integral (snd r c)) (rows df1) /\
  exists df2,
    round_columns df1 cs = Some df2 /\
    columns df2 = columns df1 /\
    Forall2 (fun r r' : labelled_row =>
               fst r' = fst r /\ forall c, snd r' c = snd r c)
            (rows df1) (rows df2).
Proof.
  intros H1.
  pose proof (round_columns_rows _ _ _ H1) as Hrows1.
  pose proof (round_columns_columns _ _ _ H1) as Hcols1.
  split.
  - rewrite Hrows1. apply Forall_forall. intros r' Hr' c Hc.
    apply in_map_iff in Hr'. destruct Hr' as [r [<- _]].
    rewrite round_cells_cell.
    apply mem_In in Hc. rewrite Hc. apply cell_round_integral.
  - destruct (round_columns_succeeds cs df1) as [df2 H2].
    { intros c Hc.
      rewrite (has_column_same_schema df1 df c Hcols1).
      eapply round_columns_has_columns; eassumption. }
    exists df2. split; [exact H2|].
    split; [eapply round_columns_columns; exact H2|].
    rewrite (round_columns_rows _ _ _ H2), Hrows1, map_map.
    apply Forall2_map_both. intros r. split.
    + apply round_cells_label.
    + intros c. rewrite !round_cells_cell.
      destruct (mem c cs); [|reflexivity].
      apply cell_round_idempotent.
Qed.

(** X8. The rounding loop completes exactly when the frame has every listed
    column. It then leaves every cell of a listed column missing or a whole
    number, in every row, observed or imputed, and it is idempotent: run
    again on its own output it completes and changes no cell. *)
Theorem rounding_loop_integral_idempotent (df : DataFrame)
  (cs : list string) :
  (forall c, In c cs -> In c (column_names df)) <->
  exists df1,
    round_columns df cs = Some df1 /\
    Forall (fun r : labelled_row =>
              forall c, In c cs -> integral (snd r c)) (rows df1) /\
    exists df2,
      round_columns df1 cs = Some df2 /\
      columns df2 = columns df1 /\
      Forall2 (fun r r' : labelled_row =>
                 fst r' = fst r /\ forall c, snd r' c = snd r c)
              (rows df1) (rows df2).
Proof.
  split.
  - intros H. destruct (round_columns_succeeds cs df) as [df1 H1].
    { intros c Hc. apply has_column_In. auto. }
    exists df1. split; [exact H1|]. eapply rounding_loop_facts. exact H1.
  - intros [df1 [H1 _]] c Hc. apply has_column_In.
    eapply round_columns_has_columns; eassumption.
Qed.

Lemma series_median_NaN (l : list cell) :
  series_median l = NaN <-> dropna l = [].
Proof.
  unfold series_median.
  pose proof (Qsort_length (dropna l)) as Hlen.
  destruct (length (Qsort (dropna l))) as [|n] eqn:E.
  - split; [|reflexivity]. intros _. apply length_zero_iff_nil. lia.
  - split.
    + destruct (Nat.even (S n)); discriminate.
    + intros Hnil. rewrite Hnil in Hlen. simpl in Hlen. lia.
Qed.

(** X9. What placeholder filling does to another registered column depends
    on whether the missing rows hold any observed value of it: if they do,
    the column has no missing entry afterwards; if they hold none, the
    median is itself missing and the column is left entirely missing. *)
Theorem placeholder_needs_an_observed_value (dfm temp : DataFrame)
  (mc : list string) (t c : string) :
  fill_others dfm mc t = Some temp ->
  In c mc -> c <> t ->
  ((exists q, In (Some q) (column_values c (rows dfm))) ->
   Forall (fun v => v <> NaN) (column_values c (rows temp))) /\
  ((forall v, In v (column_values c (rows dfm)) -> v = NaN) ->
   column_values c (rows temp) = column_values c (rows dfm)).
Proof.
  intros Hfill Hin Hne.
  destruct (fill_others_inv (rows dfm) t mc (fun _ => false) dfm temp)
    as [_ Hrows]; [|exact Hfill|].
  { apply Forall2_same. intros r. split; reflexivity. }
  set (m := series_median (column_values c (rows dfm))).
  assert (Hcol : column_values c (rows temp)
                 = map (fillna m) (column_values c (rows dfm))).
  { apply column_values_rel. eapply Forall2_weaken; [|exact Hrows].
    intros r r' [_ Hc]. rewrite (Hc c).
    apply mem_In in Hin. rewrite Hin.
    apply String.eqb_neq in Hne. rewrite Hne. reflexivity. }
  rewrite Hcol. split.
  - intros [q Hq].
    assert (Hm : m <> NaN).
    { unfold m. rewrite series_median_NaN. intros Hnil.
      clear - Hq Hnil. induction (column_values c (rows dfm)) as [|v l IH];
        [destruct Hq|].
      destruct Hq as [->|Hq]; [discriminate Hnil|].
      destruct v; [discriminate Hnil | auto]. }
    apply Forall_forall. intros v Hv. apply in_map_iff in Hv.
    destruct Hv as [w [<- _]]. destruct w; simpl; [discriminate | exact Hm].
  - intros Hall. rewrite <- (map_id (column_values c (rows dfm))) at 2.
    apply map_ext_in. intros v Hv. rewrite (Hall v Hv). simpl.
    unfold m. apply series_median_NaN.
    clear - Hall. induction (column_values c (rows dfm)) as [|v l IH];
      [reflexivity|].
    rewrite (Hall v) by (left; reflexivity). simpl.
    apply IH. intros w Hw. apply Hall. right. exact Hw.
Qed.

End EngineExtras.

(** * Feature emptiness and registration *)

Lemma count_isnull {A : Type} (col : list (option A)) :
  count_occ bool_dec (map isnull col) true = length (filter isnull col).
Proof.
  induction col as [|[a|] col IH]; simpl; [reflexivity| |].
  - destruct (bool_dec false true); [discriminate | exact IH].
  - destruct (bool_dec true true); [|congruence]. rewrite IH. reflexivity.
Qed.

Lemma filter_isnull_nil {A : Type} (col : list (option A)) :
  length (filter isnull col) = 0 <-> forall v, In v col -> v <> None.
Proof.
  induction col as [|[a|] col IH]; simpl.
  - split; [intros _ v [] | reflexivity].
  - rewrite IH. split.
    + intros H v [<-|Hv]; [discriminate | auto].
    + intros H v Hv. apply H. right. exact Hv.
  - split; [discriminate|]. intros H. exfalso.
    apply (H None); [left|]; reflexivity.
Qed.

Lemma filter_isnull_all {A : Type} (col : list (option A)) :
  length (filter isnull col) = length col <->
  forall v, In v col -> v = None.
Proof.
  induction col as [|[a|] col IH]; simpl.
  - split; [intros _ v [] | reflexivity].
  - split.
    + intros H. pose proof (filter_length_le isnull col). lia.
    + intros H. specialize (H (Some a) (or_introl eq_refl)). discriminate.
  - split.
    + intros H v [<-|Hv]; [reflexivity|]. apply IH; [lia | exact Hv].
    + intros H. f_equal. apply IH. intros v Hv. apply H. right. exact Hv.
Qed.

Lemma fraction_bounds (a b : nat) :
  a <= S b ->
  (0 <= inject_Z (Z.of_nat a) / inject_Z (Z.of_nat (S b)) <= 1)%Q.
Proof.
  intros Hab.
  assert (Hpos : (0 < inject_Z (Z.of_nat (S b)))%Q).
  { unfold Qlt. simpl. lia. }
  split.
  - apply Qle_shift_div_l; [exact Hpos|].
    rewrite Qmult_0_l. unfold Qle. simpl. lia.
  - apply Qle_shift_div_r; [exact Hpos|].
    rewrite Qmult_1_l. unfold Qle. simpl. lia.
Qed.

(** X10. The emptiness of a column: on a column without entries the
    function fails (division by zero); otherwise it returns the number of
    missing entries and their fraction of all entries, a number between 0
    and 1; the number is 0 exactly when nothing is missing, and it is the
    length of the column exactly when everything is. *)
Theorem percent_empty_behaviour {A : Type} (col : list (option A)) :
  (percent_empty col = None <-> col = []) /\
  forall p n,
    percent_empty col = Some (p, n) ->
    n = length (filter isnull col) /\
    (p == inject_Z (Z.of_nat n) / inject_Z (Z.of_nat (length col)))%Q /\
    (0 <= p <= 1)%Q /\
    (n = 0 <-> forall v, In v col -> v <> None) /\
    (n = length col <-> forall v, In v col -> v = None).
Proof.
  unfold percent_empty. rewrite length_map, count_isnull.
  destruct (length col) as [|k] eqn:Hlen.
  - apply length_zero_iff_nil in Hlen. subst col.
    split; [split; reflexivity|]. intros p n H. discriminate H.
  - split.
    { split; [discriminate|]. intros ->. discriminate Hlen. }
    intros p n H.
    match type of H with
    | Some (?a, _) = _ => remember a as pa eqn:Hpa
    end.
    injection H as <- <-.
    pose proof (filter_length_le isnull col) as Hle.
    split; [reflexivity|].
    split; [subst pa; apply Qred_correct|].
    split.
    + subst pa. rewrite Qred_correct. apply fraction_bounds. lia.
    + rewrite <- Hlen.
      split; [apply filter_isnull_nil | apply filter_isnull_all].
Qed.

Lemma percent_empty_count {A : Type} (col : list (option A)) (p : Q)
  (n : nat) :
  percent_empty col = Some (p, n) ->
  (0 <? n) = existsb isnull col.
Proof.
  intros H. unfold percent_empty in H. rewrite length_map, count_isnull in H.
  destruct (length col); [discriminate|]. inversion H; subst. clear.
  induction col as [|[a|] col IH]; simpl; auto.
Qed.

Lemma register_missing_spec {A : Type} :
  forall (cols : list (string * list (option A))) (acc : list string),
    Forall (fun c => snd c <> []) cols ->
    register_missing cols acc
    = Some (acc ++ map fst (filter (fun c => existsb isnull (snd c)) cols)).
Proof.
  induction cols as [|[name col] cols IH]; intros acc Hne; simpl.
  - rewrite app_nil_r. reflexivity.
  - inversion Hne as [|? ? Hcol Hrest]; subst. simpl in Hcol.
    destruct (percent_empty col) as [[p n]|] eqn:E.
    + cbn [bind]. rewrite (percent_empty_count col p n E), (IH _ Hrest).
      destruct (existsb isnull col); simpl; [|reflexivity].
      rewrite <- app_assoc. reflexivity.
    + exfalso. unfold percent_empty in E. rewrite length_map in E.
      destruct col; [congruence | discriminate E].
Qed.

Lemma register_missing_fails {A : Type} :
  forall (cols : list (string * list (option A))) (acc : list string),
    Exists (fun c => snd c = []) cols -> register_missing cols acc = None.
Proof.
  induction cols as [|[name col] cols IH]; intros acc Hex; simpl.
  - inversion Hex.
  - destruct col as [|v col].
    + reflexivity.
    + inversion Hex as [? ? Hc|? ? Hrest]; subst; [discriminate Hc|].
      destruct (percent_empty (v :: col)) as [[p n]|]; [|reflexivity].
      cbn [bind]. apply IH. exact Hrest.
Qed.

(** X11. The registration loop returns the names of exactly the columns that
    hold at least one missing entry, in column order, whenever every column
    has an entry; when some column has none (a frame without rows) it
    aborts with the division by zero of the emptiness of that column. *)
Theorem registration_lists_columns_with_gaps {A : Type}
  (cols : list (string * list (option A))) :
  (Forall (fun c => snd c <> []) cols ->
   register_missing cols []
   = Some (map fst (filter (fun c => existsb isnull (snd c)) cols))) /\
  (Exists (fun c => snd c = []) cols -> register_missing cols [] = None).
Proof.
  split.
  - intros H. apply (register_missing_spec cols [] H).
  - apply register_missing_fails.
Qed.

Lemma register_missing_inv {A : Type}
  (cols : list (string * list (option A))) (mc : list string) :
  register_missing cols [] = Some mc ->
  Forall (fun c => snd c <> []) cols /\
  mc = map fst (filter (fun c => existsb isnull (snd c)) cols).
Proof.
  intros H.
  assert (Hne : Forall (fun c => snd c <> []) cols).
  { apply Forall_forall. intros c Hc Hnil.
    rewrite register_missing_fails in H; [discriminate|].
    apply Exists_exists. exists c. auto. }
  split; [exact Hne|].
  rewrite (register_missing_spec cols [] Hne) in H. inversion H. reflexivity.
Qed.

Lemma registered_iff (df : DataFrame) (mc : list string) :
  register_missing (frame_columns df) [] = Some mc ->
  forall c,
    In c mc <->
    In c (column_names df) /\ In NaN (column_values c (rows df)).
Proof.
  intros H c. apply register_missing_inv in H. destruct H as [_ ->].
  unfold frame_columns. rewrite in_map_iff. split.
  - intros [[c' col] [Heq Hin]]. simpl in Heq. subst c'.
    apply filter_In in Hin. destruct Hin as [Hin Hgap].
    apply in_map_iff in Hin. destruct Hin as [c' [Heq Hc']].
    inversion Heq; subst. split; [exact Hc'|].
    simpl in Hgap. apply existsb_exists in Hgap.
    destruct Hgap as [[q|] [Hv Hnull]]; [discriminate | exact Hv].
  - intros [Hc Hnan]. exists (c, column_values c (rows df)).
    split; [reflexivity|]. apply filter_In. split.
    + apply in_map_iff. exists c. auto.
    + simpl. apply existsb_exists. exists NaN. auto.
Qed.

(** X12. When the registered columns are those that the registration loop
    finds on the frame itself, the partition of the main function, which
    looks at every column, is the partition by registered columns: a row is
    in the missing subset exactly when a registered column is missing in it,
    and in the fully-observed subset exactly when none is. *)
Theorem registered_columns_decide_partition (df : DataFrame)
  (mc : list string) (r : labelled_row) :
  register_missing (frame_columns df) [] = Some mc ->
  In r (rows df) ->
  (In r (rows (missing_part df)) <-> exists c, In c mc /\ snd r c = NaN) /\
  (In r (rows (filled_part df)) <-> forall c, In c mc -> snd r c <> NaN).
Proof.
  intros Hreg Hr.
  pose proof (registered_iff df mc Hreg) as Hmc.
  assert (Hnull : row_isnull (column_names df) r = true <->
                  exists c, In c mc /\ snd r c = NaN).
  { rewrite row_isnull_true. split; intros [c [Hc Hn]]; exists c.
    - split; [|exact Hn]. apply Hmc. split; [exact Hc|].
      unfold column_values. apply in_map_iff. exists r. auto.
    - split; [|exact Hn]. apply Hmc. exact Hc. }
  unfold missing_part, filled_part, select_rows; simpl.
  rewrite !filter_In. split.
  - rewrite Hnull. tauto.
  - rewrite negb_true_iff. split.
    + intros [_ Hf] c Hc Hn.
      assert (Ht : row_isnull (column_names df) r = true)
        by (apply Hnull; exists c; auto).
      congruence.
    + intros H. split; [exact Hr|].
      destruct (row_isnull (column_names df) r) eqn:E; [|reflexivity].
      destruct (proj1 Hnull eq_refl) as [c [Hc Hn]].
      exfalso. exact (H c Hc Hn).
Qed.

Lemma map_fst_filter {A B : Type} (p : A -> bool) (l : list (A * B)) :
  map fst (filter (fun x => p (fst x)) l) = filter p (map fst l).
Proof.
  induction l as [|[a b] l IH]; simpl; [reflexivity|].
  destruct (p a); simpl; rewrite IH; reflexivity.
Qed.

Lemma filter_map_comm {A B : Type} (p : B -> bool) (f : A -> B)
  (l : list A) :
  filter p (map f l) = map f (filter (fun a => p (f a)) l).
Proof.
  induction l as [|a l IH]; simpl; [reflexivity|].
  destruct (p (f a)); simpl; rewrite IH; reflexivity.
Qed.

Lemma filter_filter_comm {A : Type} (p q : A -> bool) (l : list A) :
  filter p (filter q l) = filter q (filter p l).
Proof.
  induction l as [|a l IH]; simpl; [reflexivity|].
  destruct (p a) eqn:Hp, (q a) eqn:Hq; simpl; rewrite ?Hp, ?Hq, IH;
    reflexivity.
Qed.

Lemma filter_absent (c : string) (l : list string) :
  ~ In c l -> filter (fun x => negb (String.eqb x c)) l = l.
Proof.
  induction l as [|y l IH]; simpl; intros H; [reflexivity|].
  destruct (String.eqb y c) eqn:E; simpl.
  - apply String.eqb_eq in E. exfalso. apply H. left. exact E.
  - f_equal. apply IH. intros Hin. apply H. right. exact Hin.
Qed.

Lemma list_remove_present (c : string) :
  forall l, NoDup l -> In c l ->
    list_remove c l = Some (filter (fun x => negb (String.eqb x c)) l).
Proof.
  induction l as [|y l IH]; intros Hnd Hin; [destruct Hin|].
  inversion Hnd as [|? ? Hy Hnd']; subst. simpl.
  destruct (String.eqb y c) eqn:E; simpl.
  - apply String.eqb_eq in E. subst y. rewrite filter_absent by exact Hy.
    reflexivity.
  - destruct Hin as [->|Hin]; [rewrite String.eqb_refl in E; discriminate|].
    rewrite (IH Hnd' Hin). reflexivity.
Qed.

Lemma list_remove_absent (c : string) :
  forall l, ~ In c l -> list_remove c l = None.
Proof.
  induction l as [|y l IH]; intros H; simpl; [reflexivity|].
  destruct (String.eqb y c) eqn:E.
  - apply String.eqb_eq in E. exfalso. apply H. left. exact E.
  - rewrite IH; [reflexivity|]. intros Hin. apply H. right. exact Hin.
Qed.

Lemma drop_columns_inv (df df' : DataFrame) (labels : list string) :
  drop_columns df labels = Some df' ->
  (forall c, In c labels -> In c (column_names df)) /\
  column_names df' = filter (fun c => negb (mem c labels)) (column_names df) /\
  rows df' = rows df.
Proof.
  unfold drop_columns.
  destruct (forallb (has_column df) labels) eqn:Hall; [|discriminate].
  intros H. inversion H; subst; clear H. split; [|split; [|reflexivity]].
  - intros c Hc. rewrite forallb_forall in Hall.
    apply has_column_In. auto.
  - unfold column_names. simpl.
    apply (map_fst_filter (fun c => negb (existsb (String.eqb c) labels))).
Qed.

(** X13. Dropping columns from a frame and dropping their names from the
    registration agree: on a frame with distinct column names, registering
    after the drop gives the earlier registration without the dropped names;
    [remove] takes a registered name out of the list and raises on a name
    that is not registered. The drop itself fails when a label is not a
    column. *)
Theorem dropping_columns_updates_registration (df df' : DataFrame)
  (labels mc : list string) :
  NoDup (column_names df) ->
  register_missing (frame_columns df) [] = Some mc ->
  drop_columns df labels = Some df' ->
  (forall c, In c labels -> In c (column_names df)) /\
  register_missing (frame_columns df') []
  = Some (filter (fun c => negb (mem c labels)) mc) /\
  forall c,
    (In c mc ->
     list_remove c mc = Some (filter (fun x => negb (String.eqb x c)) mc)) /\
    (~ In c mc -> list_remove c mc = None).
Proof.
  intros Hnd Hreg Hdrop.
  apply drop_columns_inv in Hdrop. destruct Hdrop as [Hlab [Hnames Hrows]].
  apply register_missing_inv in Hreg. destruct Hreg as [Hne Hmc].
  set (F := fun c => (c, column_values c (rows df))) in *.
  set (gap := fun c : string * list cell => existsb isnull (snd c)) in *.
  set (keep := fun c => negb (mem c labels)) in *.
  assert (Hmc' : mc = filter (fun c => gap (F c)) (column_names df)).
  { rewrite Hmc. unfold frame_columns. fold F.
    rewrite filter_map_comm, map_map. simpl. apply map_id. }
  split; [exact Hlab|]. split.
  - assert (Hcols : frame_columns df' = map F (filter keep (column_names df))).
    { unfold frame_columns. rewrite Hnames, Hrows. reflexivity. }
    rewrite Hcols, register_missing_spec.
    + simpl. f_equal. fold gap. rewrite filter_map_comm, map_map. simpl.
      rewrite map_id, Hmc'. apply filter_filter_comm.
    + rewrite Forall_forall in *. intros x Hx.
      apply in_map_iff in Hx. destruct Hx as [c [<- Hc]].
      apply filter_In in Hc. destruct Hc as [Hc _].
      apply Hne. unfold frame_columns. apply in_map_iff. exists c. auto.
  - assert (Hndmc : NoDup mc).
    { rewrite Hmc'. apply NoDup_filter. exact Hnd. }
    intros c. split.
    + apply list_remove_present. exact Hndmc.
    + apply list_remove_absent.
Qed.

(** * Deleting entries and joining the price *)

Lemma sorted_Z_increasing :
  forall l, StronglySorted Z.lt l -> Z_increasing l = true.
Proof.
  induction l as [|a l IH]; intros H; [reflexivity|].
  inversion H as [|? ? Hs Hall]; subst.
  destruct l as [|b l]; [reflexivity|].
  specialize (IH Hs). inversion Hall; subst.
  change (Z_increasing (a :: b :: l))
    with (Z.ltb a b && Z_increasing (b :: l)).
  rewrite IH. apply andb_true_intro.
  split; [apply Z.ltb_lt; assumption | reflexivity].
Qed.

Lemma filter_keeps_increasing (p : labelled_row -> bool) :
  forall l,
    StronglySorted Z.lt (map fst l) ->
    StronglySorted Z.lt (map fst (filter p l)).
Proof.
  induction l as [|r l IH]; simpl; intros H; [constructor|].
  inversion H as [|? ? Hs Hall]; subst.
  destruct (p r); simpl; [|apply IH; exact Hs].
  constructor; [apply IH; exact Hs|].
  rewrite Forall_forall in *. intros z Hz. apply Hall.
  apply in_map_iff in Hz. destruct Hz as [x [<- Hx]].
  apply filter_In in Hx. apply in_map. tauto.
Qed.

Lemma filter_filter_andb {A : Type} (p q : A -> bool) (l : list A) :
  filter q (filter p l) = filter (fun x => p x && q x) l.
Proof.
  induction l as [|a l IH]; simpl; [reflexivity|].
  destruct (p a); simpl; [|exact IH].
  destruct (q a); rewrite IH; reflexivity.
Qed.

Lemma filter_label_unique (y : Series) (i : Z) :
  NoDup (map fst y) ->
  filter (fun e => Z.eqb (fst e) i) y =
  match find (fun e => Z.eqb (fst e) i) y with
  | Some e => [e]
  | None => []
  end.
Proof.
  induction y as [|e y IH]; simpl; intros Hnd; [reflexivity|].
  inversion Hnd as [|? ? He Hnd']; subst.
  destruct (Z.eqb (fst e) i) eqn:E.
  - apply Z.eqb_eq in E. f_equal.
    assert (Hnone : forall l : Series,
               ~ In i (map fst l) ->
               filter (fun e => Z.eqb (fst e) i) l = []).
    { induction l as [|x l IHl]; simpl; intros Hl; [reflexivity|].
      destruct (Z.eqb (fst x) i) eqn:Ex.
      - apply Z.eqb_eq in Ex. exfalso. apply Hl. left. exact Ex.
      - apply IHl. intros Hin. apply Hl. right. exact Hin. }
    apply Hnone. rewrite <- E. exact He.
  - apply IH. exact Hnd'.
Qed.

Lemma join_unique (df out : DataFrame) (name : string) (y : Series) :
  NoDup (map fst y) ->
  join df name y = Some out ->
  has_column df name = false /\
  columns out = columns df ++ [(name, float64)] /\
  rows out = map (fun r : labelled_row =>
                    (fst r, row_set name (series_at y (fst r)) (snd r)))
                 (rows df).
Proof.
  intros Hnd. unfold join.
  destruct (has_column df name); [discriminate|].
  intros H. inversion H; subst; clear H. simpl.
  split; [reflexivity|]. split; [reflexivity|].
  induction (rows df) as [|r l IH]; simpl; [reflexivity|].
  rewrite IH. rewrite (filter_label_unique y (fst r) Hnd).
  unfold series_at.
  destruct (find (fun e => Z.eqb (fst e) (fst r)) y); reflexivity.
Qed.

Lemma has_column_appended (df : DataFrame) (cols : list (string * dtype))
  (rs : list labelled_row) (name : string) (d : dtype) :
  cols = columns df ++ [(name, d)] ->
  has_column {| columns := cols; rows := rs |} name = true.
Proof.
  intros ->. apply has_column_In. unfold column_names. simpl.
  rewrite map_app. apply in_or_app. right. left. reflexivity.
Qed.

(** X14. The cell that deletes the erroneous entries, on a frame that has
    the columns [bedrooms], [beds] and [bathrooms] and no [price], with a
    price series of distinct labels: it completes; it keeps, in their order
    and with the price of their label attached as a last column, exactly
    the listings whose bedrooms, beds, bathrooms and price are all different
    from 0, a missing value counting as different; and labels that increase
    along the rows still do. *)
Theorem bad_entries_deleted (listings : DataFrame) (y : Series) :
  In "bedrooms" (column_names listings) ->
  In "beds" (column_names listings) ->
  In "bathrooms" (column_names listings) ->
  ~ In "price" (column_names listings) ->
  NoDup (map fst y) ->
  exists out,
    delete_bad_entries listings y = Some out /\
    columns out = columns listings ++ [("price", float64)] /\
    rows out = map (with_price y) (filter (good_entry y) (rows listings)) /\
    Forall (fun r : labelled_row =>
              forall c, In c ["bedrooms"; "beds"; "bathrooms"; "price"] ->
                        cell_ne (snd r c) 0%Q = true) (rows out) /\
    (Z_increasing (index listings) = true -> Z_increasing (index out) = true).
Proof.
  intros Hbedrooms Hbeds Hbath Hprice Hnd.
  apply has_column_In in Hbedrooms, Hbeds, Hbath.
  assert (Hnoprice : has_column listings "price" = false).
  { destruct (has_column listings "price") eqn:E; [|reflexivity].
    apply has_column_In in E. contradiction. }
  unfold delete_bad_entries, rows_nonzero.
  rewrite Hbedrooms. cbn [bind].
  change (has_column (select_rows _ listings) "beds")
    with (has_column listings "beds").
  rewrite Hbeds. cbn [bind].
  change (has_column (select_rows _ (select_rows _ listings)) "bathrooms")
    with (has_column listings "bathrooms").
  rewrite Hbath. cbn [bind].
  match goal with
  | |- context [join ?d "price" y] =>
      destruct (join d "price" y) as [joined|] eqn:Hjoin
  end.
  2:{ unfold join in Hjoin.
      change (has_column (select_rows _ (select_rows _ (select_rows _
                listings))) "price")
        with (has_column listings "price") in Hjoin.
      rewrite Hnoprice in Hjoin. discriminate Hjoin. }
  apply (join_unique _ _ _ _ Hnd) in Hjoin.
  destruct Hjoin as [_ [Hcols Hrows]]. cbn [bind].
  simpl in Hcols, Hrows.
  destruct joined as [jcols jrows]. simpl in Hcols, Hrows.
  rewrite (has_column_appended listings jcols jrows "price" float64 Hcols).
  eexists. split; [reflexivity|]. simpl.
  split; [exact Hcols|].
  assert (Hout :
    filter (fun r : labelled_row => cell_ne (snd r "price") 0%Q) jrows
    = map (with_price y) (filter (good_entry y) (rows listings))).
  { rewrite Hrows. fold (with_price y).
    rewrite (filter_map_comm
               (fun r : labelled_row => cell_ne (snd r "price") 0%Q)).
    f_equal. rewrite !filter_filter_andb. apply filter_ext.
    intros r. unfold good_entry, with_price. simpl.
    rewrite row_set_same, !andb_assoc. reflexivity. }
  rewrite Hout. split; [reflexivity|]. split.
  - apply Forall_forall. intros r' Hr'. apply in_map_iff in Hr'.
    destruct Hr' as [r [<- Hr]]. apply filter_In in Hr.
    destruct Hr as [_ Hgood]. unfold good_entry in Hgood.
    apply andb_prop in Hgood. destruct Hgood as [Hgood H4].
    apply andb_prop in Hgood. destruct Hgood as [Hgood H3].
    apply andb_prop in Hgood. destruct Hgood as [H1 H2].
    intros c [<-|[<-|[<-|[<-|[]]]]]; unfold with_price; simpl;
      rewrite ?row_set_same; try assumption;
      rewrite row_set_other by discriminate; assumption.
  - intros Hinc. apply sorted_Z_increasing. unfold index. simpl.
    rewrite Hout, map_map. simpl.
    apply Z_increasing_sorted in Hinc.
    apply (filter_keeps_increasing (good_entry y)). exact Hinc.
Qed.

Section Pipeline.

Context {L : Libraries}.

Lemma KNN_fill_aligned_observed (g : rng) (df out : DataFrame)
  (mc : list string) :
  knn_total_output L ->
  Z_increasing (index df) = true ->
  KNN_fill g df mc = Some out ->
  Forall (fun c => In c (column_names df)) mc /\
  columns out = columns df /\
  Forall2 (fun r r' => same_outside mc r r' /\ observed_on mc r')
          (rows df) (rows out).
Proof.
  intros Htotal Hinc Hrun.
  destruct (KNN_fill_inv _ _ _ _ Hrun) as [st0 [_ [_ [_ Hcols]]]].
  destruct (KNN_fill_rows_woven g df out mc Hinc Hrun)
    as [st [Hloop [Hframe Hrows]]].
  pose proof (impute_columns_observed Htotal _ _ _ _ _ _ _ Hloop) as Hobs.
  split; [exact Hcols|]. split.
  - unfold KNN_fill in Hrun. bind_inv Hrun. inversion Hrun; subst.
    reflexivity.
  - rewrite Hrows. apply weave_Forall2.
    + intros r Hr. split; [apply same_outside_refl|].
      intros c Hc. apply (row_isnull_false _ _ Hr).
      rewrite Forall_forall in Hcols. apply Hcols. exact Hc.
    + apply Forall2_and_Forall_r; assumption.
Qed.

Lemma del_column_inv (df df' : DataFrame) (c : string) :
  del_column df c = Some df' ->
  rows df' = rows df /\ ~ In c (column_names df') /\
  columns df' = filter (fun p => negb (String.eqb (fst p) c)) (columns df).
Proof.
  unfold del_column. destruct (has_column df c); [|discriminate].
  intros H. inversion H; subst; clear H. simpl.
  split; [reflexivity|]. split; [|reflexivity].
  unfold column_names. simpl. intros Hin.
  apply in_map_iff in Hin. destruct Hin as [p [Hp Hin]].
  apply filter_In in Hin. destruct Hin as [_ Hne]. subst c.
  rewrite String.eqb_refl in Hne. discriminate.
Qed.

(** X15. The cells that impute and finish the frame, when they complete on
    listings whose labels increase along the rows, with a price series of
    distinct labels and a model that never predicts NaN: the price is not a
    registered column; the output has the columns of the input with the
    price last; and, row for row in the order of the input, it carries the
    input's label, the price that the series holds for that label, an
    observed whole number in every registered column and, in every other
    column, the cell of the input. *)
Theorem listings_cleaned (g : rng) (listings out : DataFrame) (y : Series)
  (mc : list string) :
  knn_total_output L ->
  Z_increasing (index listings) = true ->
  NoDup (map fst y) ->
  clean_listings g listings y mc = Some out ->
  ~ In "price" mc /\
  columns out
  = filter (fun p => negb (String.eqb (fst p) "price")) (columns listings)
    ++ [("price", float64)] /\
  Forall2 (fun r r' : labelled_row =>
             fst r' = fst r /\
             snd r' "price" = series_at y (fst r) /\
             (forall c, In c mc ->
                snd r' c <> NaN /\ integral (snd r' c)) /\
             (forall c, ~ In c mc -> c <> "price" -> snd r' c = snd r c))
          (rows listings) (rows out).
Proof.
  intros Htotal Hinc Hnd Hrun. unfold clean_listings in Hrun.
  bind_inv Hrun. rename d into l1. bind_inv Hrun. rename d into clean.
  bind_inv Hrun. bind_inv Hrun. rename d0 into joined.
  apply del_column_inv in E. destruct E as [Hrows1 [Hnoprice Hcols1]].
  assert (Hinc1 : Z_increasing (index l1) = true)
    by (unfold index; rewrite Hrows1; exact Hinc).
  destruct (KNN_fill_aligned_observed g l1 clean mc Htotal Hinc1 E0)
    as [Hmc [Hcolsc Hal]].
  apply (join_unique _ _ _ _ Hnd) in E2.
  destruct E2 as [_ [Hcolsj Hrowsj]].
  pose proof (round_columns_columns _ _ _ Hrun) as Hcolso.
  apply round_columns_rows in Hrun.
  assert (Hpmc : ~ In "price" mc).
  { intros Hin. rewrite Forall_forall in Hmc. apply Hnoprice. auto. }
  split; [exact Hpmc|].
  split; [rewrite Hcolso, Hcolsj, Hcolsc, Hcols1; reflexivity|].
  rewrite Hrun, Hrowsj, map_map, <- Hrows1.
  apply Forall2_map_r. eapply Forall2_weaken; [|exact Hal].
  intros r r' [[Hl Hsame] Hobs]. simpl.
  rewrite round_cells_label. simpl. split; [exact Hl|]. split; [|split].
  - rewrite round_cells_cell. apply mem_not_In in Hpmc. rewrite Hpmc.
    simpl. rewrite row_set_same, Hl. reflexivity.
  - intros c Hc. rewrite round_cells_cell.
    pose proof Hc as Hm. apply mem_In in Hm. rewrite Hm. simpl.
    assert (Hne : c <> "price") by (intros ->; contradiction).
    rewrite row_set_other by exact Hne.
    split; [|apply cell_round_integral].
    specialize (Hobs c Hc). destruct (snd r' c); simpl;
      [discriminate | exfalso; apply Hobs; reflexivity].
  - intros c Hc Hne. rewrite round_cells_cell.
    apply mem_not_In in Hc. rewrite Hc. simpl.
    rewrite row_set_other by exact Hne. apply Hsame.
    apply mem_not_In. exact Hc.
Qed.

End Pipeline.

(** * Label encoding *)

Section LabelEncoderFacts.

Variable A : Type.
Variable eqb leb : A -> A -> bool.
Hypothesis eqb_eq : forall x y, eqb x y = true <-> x = y.
Hypothesis leb_total : forall x y, leb x y = true \/ leb y x = true.
Hypothesis leb_trans :
  forall x y z, leb x y = true -> leb y z = true -> leb x z = true.
Hypothesis leb_antisym : forall x y, leb x y = true -> leb y x = true -> x = y.

Let lt (x y : A) : Prop := leb x y = true /\ x <> y.

Lemma eqb_false_ne (x y : A) : eqb x y = false -> x <> y.
Proof.
  intros H Heq. apply eqb_eq in Heq. congruence.
Qed.

Lemma lt_trans (x y z : A) : lt x y -> lt y z -> lt x z.
Proof.
  intros [Hxy Hne] [Hyz Hne']. split; [eapply leb_trans; eassumption|].
  intros ->. apply Hne. apply leb_antisym; assumption.
Qed.

Lemma insert_unique_In (x : A) :
  forall l z, In z (insert_unique eqb leb x l) <-> z = x \/ In z l.
Proof.
  induction l as [|y l IH]; intros z; simpl.
  - split; [intros [<-|[]]; auto | intros [->|[]]; auto].
  - destruct (eqb x y) eqn:E.
    + apply eqb_eq in E. subst y. simpl. split; [auto|].
      intros [->|H]; auto.
    + destruct (leb x y); simpl; [split; intros [<-|H]; auto|].
      rewrite IH. split; intros [H|[H|H]]; auto.
Qed.

Lemma insert_unique_sorted (x : A) :
  forall l, StronglySorted lt l ->
            StronglySorted lt (insert_unique eqb leb x l).
Proof.
  induction l as [|y l IH]; intros Hs; simpl.
  - repeat constructor.
  - inversion Hs as [|? ? Hs' Hall]; subst.
    destruct (eqb x y) eqn:E; [exact Hs|].
    apply eqb_false_ne in E.
    destruct (leb x y) eqn:Hle.
    + constructor; [exact Hs|]. constructor; [split; assumption|].
      eapply Forall_impl; [|exact Hall]. intros z Hz.
      eapply lt_trans; [split; eassumption | exact Hz].
    + constructor; [apply IH; exact Hs'|].
      apply Forall_forall. intros z Hz. apply insert_unique_In in Hz.
      destruct Hz as [->|Hz].
      * split; [|congruence].
        destruct (leb_total x y) as [H|H]; [congruence | exact H].
      * rewrite Forall_forall in Hall. auto.
Qed.

Lemma np_unique_sorted (l : list A) :
  StronglySorted lt (np_unique eqb leb l).
Proof.
  induction l as [|x l IH]; simpl; [constructor|].
  apply insert_unique_sorted. exact IH.
Qed.

Lemma np_unique_In (l : list A) :
  forall z, In z (np_unique eqb leb l) <-> In z l.
Proof.
  induction l as [|x l IH]; intros z; simpl; [reflexivity|].
  rewrite insert_unique_In, IH. split; intros [H|H]; auto.
Qed.

Lemma index_of_nth (x : A) :
  forall l, In x l ->
    nth_error l (index_of eqb x l) = Some x /\ index_of eqb x l < length l.
Proof.
  induction l as [|y l IH]; intros Hin; [destruct Hin|]. simpl.
  destruct (eqb x y) eqn:E.
  - apply eqb_eq in E. subst y. simpl. split; [reflexivity | lia].
  - destruct Hin as [->|Hin].
    + assert (eqb x x = true) by (apply eqb_eq; reflexivity). congruence.
    + destruct (IH Hin) as [H1 H2]. simpl. split; [exact H1 | lia].
Qed.

Lemma sorted_head_smallest (a : A) (l : list A) (x : A) :
  StronglySorted lt (a :: l) -> In x l -> lt a x.
Proof.
  intros Hs Hx. inversion Hs as [|? ? _ Hall]; subst.
  rewrite Forall_forall in Hall. auto.
Qed.

Lemma index_of_monotone :
  forall l, StronglySorted lt l ->
    forall x y, In x l -> In y l ->
      (index_of eqb x l <= index_of eqb y l <-> leb x y = true).
Proof.
  induction l as [|a l IH]; intros Hs x y Hx Hy; [destruct Hx|].
  pose proof Hs as Hs0. inversion Hs as [|? ? Hs' Hall]; subst. simpl.
  destruct (eqb x a) eqn:Ex.
  - apply eqb_eq in Ex. subst x. split; [|lia]. intros _.
    destruct Hy as [<-|Hy].
    + destruct (leb_total a a); assumption.
    + apply (sorted_head_smallest a l y Hs0 Hy).
  - apply eqb_false_ne in Ex.
    destruct Hx as [->|Hx]; [congruence|].
    destruct (eqb y a) eqn:Ey.
    + apply eqb_eq in Ey. subst y. split; [lia|]. intros Hle. exfalso.
      destruct (sorted_head_smallest a l x Hs0 Hx) as [Hax _].
      apply Ex. apply leb_antisym; assumption.
    + apply eqb_false_ne in Ey.
      destruct Hy as [->|Hy]; [congruence|].
      rewrite <- (IH Hs' x y Hx Hy). lia.
Qed.

Lemma sorted_NoDup : forall l, StronglySorted lt l -> NoDup l.
Proof.
  induction 1 as [|a l _ IH Hall]; constructor; [|exact IH].
  intros Hin. rewrite Forall_forall in Hall.
  destruct (Hall a Hin) as [_ Hne]. congruence.
Qed.

Lemma index_of_position :
  forall l, NoDup l ->
    forall i x, nth_error l i = Some x -> index_of eqb x l = i.
Proof.
  induction l as [|a l IH]; intros Hnd i x Hi; [destruct i; discriminate|].
  inversion Hnd as [|? ? Ha Hnd']; subst. simpl.
  destruct i as [|i]; simpl in Hi.
  - inversion Hi; subst.
    assert (eqb x x = true) by (apply eqb_eq; reflexivity).
    rewrite H. reflexivity.
  - destruct (eqb x a) eqn:E.
    + apply eqb_eq in E. subst a. exfalso. apply Ha.
      eapply nth_error_In. exact Hi.
    + f_equal. apply IH; assumption.
Qed.

Lemma fit_transform_spec (y : list A) :
  let classes := np_unique eqb leb y in
  let codes := fit_transform eqb leb y in
  StronglySorted lt classes /\
  (forall v, In v classes <-> In v y) /\
  Forall2 (fun v k => nth_error classes k = Some v) y codes /\
  (forall i j v w,
     nth_error y i = Some v -> nth_error y j = Some w ->
     forall k m, nth_error codes i = Some k -> nth_error codes j = Some m ->
       (k = m <-> v = w) /\ (k <= m <-> leb v w = true)) /\
  (forall k, k < length classes <-> In k codes).
Proof.
  intros classes codes.
  pose proof (np_unique_sorted y) as Hs. fold classes in Hs.
  pose proof (np_unique_In y) as Hin. fold classes in Hin.
  assert (Hcode : forall i v k,
             nth_error y i = Some v -> nth_error codes i = Some k ->
             In v classes /\ k = index_of eqb v classes).
  { intros i v k Hv Hk. unfold codes, fit_transform in Hk.
    rewrite nth_error_map, Hv in Hk. simpl in Hk. inversion Hk; subst.
    split; [|reflexivity]. apply Hin. eapply nth_error_In. exact Hv. }
  split; [exact Hs|]. split; [exact Hin|]. split; [|split].
  - unfold codes, fit_transform. fold classes.
    assert (Hgen : forall l,
               (forall v, In v l -> In v classes) ->
               Forall2 (fun v k => nth_error classes k = Some v) l
                       (map (fun v => index_of eqb v classes) l)).
    { induction l as [|v l IH]; intros Hall; simpl; constructor.
      - apply index_of_nth. apply Hall. left. reflexivity.
      - apply IH. intros w Hw. apply Hall. right. exact Hw. }
    apply Hgen. intros v Hv. apply Hin. exact Hv.
  - intros i j v w Hv Hw k m Hk Hm.
    destruct (Hcode i v k Hv Hk) as [Hvc ->].
    destruct (Hcode j w m Hw Hm) as [Hwc ->].
    split; [|apply index_of_monotone; assumption].
    split; [|intros ->; reflexivity].
    intros Heq.
    destruct (index_of_nth v classes Hvc) as [H1 _].
    destruct (index_of_nth w classes Hwc) as [H2 _].
    rewrite Heq in H1. congruence.
  - intros k. split.
    + intros Hk. destruct (nth_error classes k) as [v|] eqn:Hv.
      * assert (Hvy : In v y) by (apply Hin; eapply nth_error_In; exact Hv).
        unfold codes, fit_transform. fold classes. apply in_map_iff.
        exists v. split; [|exact Hvy].
        apply index_of_position; [apply sorted_NoDup; exact Hs | exact Hv].
      * apply nth_error_None in Hv. lia.
    + intros Hk. unfold codes, fit_transform in Hk. fold classes in Hk.
      apply in_map_iff in Hk. destruct Hk as [v [<- Hv]].
      apply index_of_nth. apply Hin. exact Hv.
Qed.

End LabelEncoderFacts.

Lemma string_leb_iff (a b : string) :
  String.leb a b = true <-> String.compare a b <> Gt.
Proof.
  unfold String.leb. destruct (String.compare a b); split; congruence.
Qed.

Lemma string_compare_trans :
  forall a b c : string,
    String.compare a b <> Gt -> String.compare b c <> Gt ->
    String.compare a c <> Gt.
Proof.
  induction a as [|x a IH]; intros [|y b] [|z c] H1 H2; simpl in *;
    try congruence.
  unfold Ascii.compare in *.
  destruct (N.compare_spec (Ascii.N_of_ascii x) (Ascii.N_of_ascii y)) as [E1|L1|G1];
    destruct (N.compare_spec (Ascii.N_of_ascii y) (Ascii.N_of_ascii z)) as [E2|L2|G2];
    destruct (N.compare_spec (Ascii.N_of_ascii x) (Ascii.N_of_ascii z)) as [E3|L3|G3];
    try congruence; try lia.
  eapply IH; eassumption.
Qed.

Lemma string_leb_trans (a b c : string) :
  String.leb a b = true -> String.leb b c = true -> String.leb a c = true.
Proof.
  rewrite !string_leb_iff. apply string_compare_trans.
Qed.

(** X16. Label encoding of a column. A float64 column is returned as it is,
    missing values included. A column of strings becomes a column of
    integer codes of the same length, where the code of a value is its
    position among the distinct values of the column sorted in increasing
    order: decoding the code through the sorted values gives the value
    back; two entries get the same code exactly when they are equal, and a
    smaller or equal code exactly when the first is smaller or equal; and
    the codes used are exactly 0, 1, ... up to the number of distinct values
    minus one. *)
Theorem label_encoding_of_a_column :
  (forall l, encode_categorical (float_array l) = float_array l) /\
  forall l : list string,
    exists codes classes,
      encode_categorical (object_array l) = int_array (map Z.of_nat codes) /\
      StronglySorted (fun a b => String.leb a b = true /\ a <> b) classes /\
      (forall v, In v classes <-> In v l) /\
      Forall2 (fun v k => nth_error classes k = Some v) l codes /\
      (forall i j v w,
         nth_error l i = Some v -> nth_error l j = Some w ->
         forall k m,
           nth_error codes i = Some k -> nth_error codes j = Some m ->
           (k = m <-> v = w) /\ (k <= m <-> String.leb v w = true)) /\
      (forall k, k < length classes <-> In k codes).
Proof.
  split; [reflexivity|]. intros l.
  exists (fit_transform String.eqb String.leb l),
         (np_unique String.eqb String.leb l).
  split; [reflexivity|].
  apply (fit_transform_spec string String.eqb String.leb).
  - apply String.eqb_eq.
  - apply String.leb_total.
  - apply string_leb_trans.
  - apply String.leb_antisym.
Qed.

(** * Trimming the neighbourhoods *)

Lemma counter_get_add (s k : string) :
  forall c,
    counter_get (counter_add s c) k =
    if String.eqb k s then S (counter_get c k) else counter_get c k.
Proof.
  unfold counter_get. induction c as [|[k' n] c IH]; simpl.
  - rewrite (String.eqb_sym s k). destruct (String.eqb k s); reflexivity.
  - destruct (String.eqb k' s) eqn:Es; simpl.
    + apply String.eqb_eq in Es. subst k'.
      rewrite (String.eqb_sym s k). destruct (String.eqb k s); reflexivity.
    + destruct (String.eqb k' k) eqn:Ek; simpl; [|exact IH].
      apply String.eqb_eq in Ek. subst k'.
      rewrite Es. reflexivity.
Qed.

Lemma counter_add_keys (s : string) :
  forall c,
    map fst (counter_add s c) =
    if mem s (map fst c) then map fst c else map fst c ++ [s].
Proof.
  unfold mem. induction c as [|[k n] c IH]; simpl; [reflexivity|].
  rewrite (String.eqb_sym s k).
  destruct (String.eqb k s); simpl; [reflexivity|].
  rewrite IH. destruct (existsb (String.eqb s) (map fst c)); reflexivity.
Qed.

Lemma counter_add_NoDup (s : string) (c : list (string * nat)) :
  NoDup (map fst c) -> NoDup (map fst (counter_add s c)).
Proof.
  intros H. rewrite counter_add_keys.
  destruct (mem s (map fst c)) eqn:E; [exact H|].
  apply mem_not_In in E. apply NoDup_app; [exact H | repeat constructor; auto |].
  intros a Ha [<-|[]]. contradiction.
Qed.

Lemma Counter_spec (l : list string) :
  forall c,
    NoDup (map fst c) ->
    let c' := fold_left (fun c s => counter_add s c) l c in
    NoDup (map fst c') /\
    (forall k, In k (map fst c') <-> In k (map fst c) \/ In k l) /\
    (forall k, counter_get c' k = counter_get c k + count_occ string_dec l k).
Proof.
  induction l as [|s l IH]; intros c Hnd; simpl.
  - split; [exact Hnd|]. split; [intros k; tauto | intros k; lia].
  - destruct (IH (counter_add s c) (counter_add_NoDup s c Hnd))
      as [H1 [H2 H3]].
    split; [exact H1|]. split.
    + intros k. rewrite H2, counter_add_keys.
      destruct (mem s (map fst c)) eqn:E.
      * apply mem_In in E. split; [tauto|].
        intros [H|[<-|H]]; auto.
      * rewrite in_app_iff. simpl. tauto.
    + intros k. rewrite H3, counter_get_add.
      destruct (string_dec s k) as [->|Hne].
      * rewrite String.eqb_refl. lia.
      * destruct (String.eqb k s) eqn:E; [|reflexivity].
        apply String.eqb_eq in E. congruence.
Qed.

Lemma counter_get_entry (c : list (string * nat)) (e : string * nat) :
  NoDup (map fst c) -> In e c -> counter_get c (fst e) = snd e.
Proof.
  unfold counter_get. induction c as [|e' c IH]; intros Hnd Hin;
    [destruct Hin|].
  simpl in Hnd. inversion Hnd as [|? ? He' Hnd']; subst. simpl.
  destruct Hin as [->|Hin].
  - rewrite String.eqb_refl. reflexivity.
  - destruct (String.eqb (fst e') (fst e)) eqn:E; [|apply IH; assumption].
    apply String.eqb_eq in E. exfalso. apply He'. rewrite E.
    apply in_map. exact Hin.
Qed.

Lemma counter_get_filtered (c : list (string * nat)) (i k : string) :
  k <> i ->
  counter_get (filter (fun e => negb (String.eqb (fst e) i)) c) k
  = counter_get c k.
Proof.
  intros Hne. unfold counter_get.
  induction c as [|e c IH]; simpl; [reflexivity|].
  destruct (String.eqb (fst e) i) eqn:Ei; simpl.
  - apply String.eqb_eq in Ei.
    destruct (String.eqb (fst e) k) eqn:Ek; [|exact IH].
    apply String.eqb_eq in Ek. congruence.
  - destruct (String.eqb (fst e) k); [reflexivity | exact IH].
Qed.

Section TrimmingFacts.

Variable Row : Type.
Variable nb : Row -> string.

Lemma trim_loop_spec :
  forall keys c listings,
    NoDup keys -> NoDup (map fst c) ->
    trim_loop nb keys c listings =
    (filter (fun e => negb (mem (fst e) keys && (snd e <? 100))) c,
     filter (fun r => negb (mem (nb r) keys
                            && (counter_get c (nb r) <? 100)))
            listings).
Proof.
  induction keys as [|i keys IH]; intros c listings Hk Hc;
    cbn [trim_loop].
  - f_equal; symmetry; apply forallb_filter_id;
      apply forallb_forall; intros; reflexivity.
  - inversion Hk as [|? ? Hi Hk']; subst.
    assert (Hmem : forall x, mem x (i :: keys)
                             = (String.eqb x i || mem x keys)%bool)
      by reflexivity.
    assert (Hkeys' :
              map fst (filter (fun e : string * nat =>
                                 negb (String.eqb (fst e) i)) c)
              = filter (fun k => negb (String.eqb k i)) (map fst c))
      by apply (map_fst_filter (fun k => negb (String.eqb k i))).
    destruct (counter_get c i <? 100) eqn:Hsmall.
    + unfold counter_del. rewrite IH.
      * f_equal.
        -- rewrite filter_filter_andb. apply filter_ext_in. intros e He.
           rewrite Hmem. destruct (String.eqb (fst e) i) eqn:E; simpl;
             [|reflexivity].
           apply String.eqb_eq in E.
           rewrite <- (counter_get_entry c e Hc He), E, Hsmall.
           reflexivity.
        -- rewrite filter_filter_andb. apply filter_ext. intros r.
           rewrite Hmem. destruct (String.eqb (nb r) i) eqn:E; simpl.
           ++ apply String.eqb_eq in E. rewrite E, Hsmall. reflexivity.
           ++ apply String.eqb_neq in E.
              rewrite counter_get_filtered by exact E. reflexivity.
      * exact Hk'.
      * rewrite Hkeys'. apply NoDup_filter. exact Hc.
    + rewrite IH; [|exact Hk'|exact Hc].
      f_equal.
      * apply filter_ext_in. intros e He. rewrite Hmem.
        destruct (String.eqb (fst e) i) eqn:E; simpl; [|reflexivity].
        apply String.eqb_eq in E.
        rewrite <- (counter_get_entry c e Hc He), E, Hsmall.
        rewrite andb_false_r. reflexivity.
      * apply filter_ext. intros r. rewrite Hmem.
        destruct (String.eqb (nb r) i) eqn:E; simpl; [|reflexivity].
        apply String.eqb_eq in E. rewrite E, Hsmall.
        rewrite andb_false_r. reflexivity.
Qed.

(** X17. Trimming the neighbourhoods, in whatever order the dictionary
    yields its keys: the loop keeps, in their order, exactly
    the listings whose neighbourhood has at least 100 listings in the frame
    it starts from, and leaves in the counter exactly the neighbourhoods
    with at least 100 listings, each with the number of its listings. *)
Theorem neighbourhoods_trimmed (keys : list string) (listings : list Row) :
  let names := map nb listings in
  Permutation keys (map fst (Counter names)) ->
  trim_neighbourhoods nb keys listings =
  (filter (fun e => 100 <=? snd e) (Counter names),
   filter (fun r => 100 <=? count_occ string_dec names (nb r))
          listings) /\
  forall k, counter_get (Counter names) k = count_occ string_dec names k.
Proof.
  intros names Hperm.
  destruct (Counter_spec names [] (NoDup_nil _)) as [Hnd [Hkeys Hget]].
  fold (Counter names) in Hnd, Hkeys, Hget. simpl in Hget.
  split; [|exact Hget].
  unfold trim_neighbourhoods. fold names. rewrite trim_loop_spec.
  - f_equal.
    + apply filter_ext_in. intros e He.
      assert (Hm : mem (fst e) keys = true).
      { apply mem_In. eapply Permutation_in;
          [apply Permutation_sym; exact Hperm | apply in_map; exact He]. }
      rewrite Hm. cbn [andb]. symmetry. apply Nat.leb_antisym.
    + apply filter_ext_in. intros r Hr.
      assert (Hm : mem (nb r) keys = true).
      { apply mem_In. eapply Permutation_in;
          [apply Permutation_sym; exact Hperm|].
        apply Hkeys. right. unfold names. apply in_map. exact Hr. }
      rewrite Hm, Hget. cbn [andb]. symmetry. apply Nat.leb_antisym.
  - eapply Permutation_NoDup; [apply Permutation_sym; exact Hperm|exact Hnd].
  - exact Hnd.
Qed.

End TrimmingFacts.

(** * Price buckets *)

Lemma sorted_nth_le :
  forall (l : list Q) i j a b,
    StronglySorted Qle l -> i <= j ->
    nth_error l i = Some a -> nth_error l j = Some b -> (a <= b)%Q.
Proof.
  induction l as [|x l IH]; intros i j a b Hs Hij Ha Hb;
    [destruct i; discriminate|].
  inversion Hs as [|? ? Hs' Hall]; subst.
  destruct i as [|i]; simpl in Ha.
  - inversion Ha; subst. destruct j as [|j]; simpl in Hb.
    + inversion Hb; subst. apply Qle_refl.
    + rewrite Forall_forall in Hall. apply Hall.
      eapply nth_error_In. exact Hb.
  - destruct j as [|j]; [lia|]. simpl in Hb.
    eapply (IH i j); try eassumption. lia.
Qed.

Section BucketsFacts.

Variable Row : Type.
Variable prices : Row -> Q.

Lemma price_buckets_length (listings : list Row) :
  forall l, length (price_buckets prices l listings) = length l - 1.
Proof.
  induction l as [|lo [|hi rest] IH]; simpl in *; try reflexivity.
  rewrite IH. lia.
Qed.

Lemma price_buckets_nth (listings : list Row) :
  forall l i b,
    nth_error (price_buckets prices l listings) i = Some b ->
    exists lo hi,
      nth_error l i = Some lo /\ nth_error l (S i) = Some hi /\
      forall r, In r b <->
                In r listings /\ (lo < prices r)%Q /\ (prices r < hi)%Q.
Proof.
  induction l as [|lo [|hi rest] IH]; intros i b H;
    try (destruct i; discriminate).
  destruct i as [|i].
  - cbn [price_buckets nth_error] in H. inversion H; subst.
    exists lo, hi. split; [reflexivity|]. split; [reflexivity|].
    intros r. rewrite filter_In, andb_true_iff, !Qlt_bool_iff; tauto.
  - cbn [price_buckets nth_error] in H. apply IH in H.
    destruct H as [lo' [hi' [H1 [H2 H3]]]].
    exists lo', hi'. auto.
Qed.

(** X18. The price buckets of the exploration notebook, for bounds in
    nondecreasing order: there is one bucket for each pair of consecutive
    bounds; a bucket holds the listings whose price lies strictly between
    its two bounds; no listing is in two buckets; and a listing whose price
    equals one of the bounds is in no bucket. *)
Theorem price_buckets_are_open_intervals (bounds : list Q)
  (listings : list Row) :
  StronglySorted Qle bounds ->
  let buckets := price_buckets prices bounds listings in
  length buckets = length bounds - 1 /\
  (forall i b,
     nth_error buckets i = Some b ->
     exists lo hi,
       nth_error bounds i = Some lo /\ nth_error bounds (S i) = Some hi /\
       forall r, In r b <->
                 In r listings /\ (lo < prices r)%Q /\ (prices r < hi)%Q) /\
  (forall i j b b' r,
     nth_error buckets i = Some b -> nth_error buckets j = Some b' ->
     In r b -> In r b' -> i = j) /\
  (forall r q b,
     In q bounds -> (prices r == q)%Q -> In b buckets -> ~ In r b).
Proof.
  intros Hs buckets.
  split; [apply price_buckets_length|].
  split; [apply price_buckets_nth|].
  assert (Hlt : forall i j b b' r,
             i < j ->
             nth_error buckets i = Some b -> nth_error buckets j = Some b' ->
             In r b -> In r b' -> False).
  { intros i j b b' r Hij Hb Hb' Hr Hr'.
    apply price_buckets_nth in Hb, Hb'.
    destruct Hb as [lo [hi [_ [Hhi Hin]]]].
    destruct Hb' as [lo' [hi' [Hlo' [_ Hin']]]].
    apply Hin in Hr. apply Hin' in Hr'.
    destruct Hr as [_ [_ H1]]. destruct Hr' as [_ [H2 _]].
    assert (Hle : (hi <= lo')%Q)
      by (eapply (sorted_nth_le bounds (S i) j); try eassumption; lia).
    apply (Qlt_irrefl (prices r)).
    eapply Qlt_le_trans; [exact H1|].
    eapply Qle_trans; [exact Hle | apply Qlt_le_weak; exact H2]. }
  split.
  - intros i j b b' r Hb Hb' Hr Hr'.
    destruct (Nat.lt_trichotomy i j) as [H|[H|H]]; [|exact H|].
    + exfalso. eapply (Hlt i j); eassumption.
    + exfalso. eapply (Hlt j i); eassumption.
  - intros r q b Hq Heq Hb Hr.
    apply In_nth_error in Hb. destruct Hb as [i Hb].
    apply In_nth_error in Hq. destruct Hq as [k Hk].
    apply price_buckets_nth in Hb.
    destruct Hb as [lo [hi [Hlo [Hhi Hin]]]].
    apply Hin in Hr. destruct Hr as [_ [H1 H2]].
    rewrite Heq in H1, H2.
    destruct (Nat.le_gt_cases k i) as [Hki|Hki].
    + apply (Qlt_irrefl q). eapply Qle_lt_trans; [|exact H1].
      eapply (sorted_nth_le bounds k i); eassumption.
    + apply (Qlt_irrefl q). eapply Qlt_le_trans; [exact H2|].
      eapply (sorted_nth_le bounds (S i) k); eassumption.
Qed.

End BucketsFacts.

(** * Instances of the further properties on the example frames *)

Lemma rotate_Permutation {A : Type} (n : nat) (l : list A) :
  Permutation (rotate n l) l.
Proof.
  unfold rotate. eapply perm_trans; [apply Permutation_app_comm|].
  rewrite firstn_skipn. apply Permutation_refl.
Qed.

Lemma reference_sample_permutes : sample_permutes reference_libs.
Proof.
  intros g l. simpl. apply rotate_Permutation.
Qed.

Lemma output_rows_aligned_witness :
  exists out,
    Z_increasing (index listings) = true /\
    KNN_fill (L := reference_libs) 0 listings listings_missing_columns
    = Some out /\
    Forall2 (fun r r' =>
               same_outside listings_missing_columns r r' /\
               (row_isnull (column_names listings) r = false -> r' = r))
            (rows listings) (rows out).
Proof.
  eexists. split; [reflexivity|]. split.
  - vm_compute. reflexivity.
  - apply (output_rows_aligned (L := reference_libs) 0).
    + reflexivity.
    + vm_compute. reflexivity.
Defined.

Lemma nothing_registered_nothing_changed_witness :
  Z_increasing (index listings) = true /\
  exists out,
    KNN_fill (L := reference_libs) 0 listings [] = Some out /\
    impute_run (L := reference_libs) 0 listings [] = Some out /\
    rows out = rows listings /\ columns out = columns listings.
Proof.
  split; [reflexivity|].
  apply (nothing_registered_nothing_changed (L := reference_libs) 0).
  reflexivity.
Defined.

Lemma absent_registered_column_aborts_witness :
  In "price" ["bedrooms"; "price"] /\
  ~ In "price" (column_names listings) /\
  KNN_fill (L := reference_libs) 0 listings ["bedrooms"; "price"] = None /\
  impute_run (L := reference_libs) 0 listings ["bedrooms"; "price"] = None.
Proof.
  assert (Hin : In "price" ["bedrooms"; "price"])
    by (right; left; reflexivity).
  assert (Hnot : ~ In "price" (column_names listings)).
  { simpl. intros [H|[H|[H|[]]]]; discriminate H. }
  split; [exact Hin|]. split; [exact Hnot|].
  apply (absent_registered_column_aborts (L := reference_libs) 0 listings
           ["bedrooms"; "price"] "price" Hin Hnot).
Defined.

Lemma schema_is_preserved_witness :
  exists out,
    impute_run (L := reference_libs) 0 listings listings_missing_columns
    = Some out /\
    columns out = columns listings /\
    exists st clean,
      KNN_fill_loop (L := reference_libs) 0 listings listings_missing_columns
      = Some st /\
      columns (df_missing st) = columns listings /\
      KNN_fill (L := reference_libs) 0 listings listings_missing_columns
      = Some clean /\
      columns clean = columns listings.
Proof.
  eexists. split.
  - vm_compute. reflexivity.
  - apply (schema_is_preserved (L := reference_libs) 0).
    vm_compute. reflexivity.
Defined.

Lemma seventy_draws_per_column_witness :
  exists st,
    KNN_fill_loop (L := reference_libs) 0 listings listings_missing_columns
    = Some st /\
    gen st = Nat.iter (70 * length listings_missing_columns)
                      (next_gen (L := reference_libs) (filled_part listings))
                      0.
Proof.
  eexists. split.
  - vm_compute. reflexivity.
  - apply (seventy_draws_per_column (L := reference_libs)).
    vm_compute. reflexivity.
Defined.

Lemma neighbour_count_averages_whole_run_witness :
  let df_filled := filled_part listings in
  let ti := test_size (length (rows df_filled)) in
  exists st best_k st',
    impute_columns (L := reference_libs) listings df_filled ti
                   listings_missing_columns
                   (initial_state (L := reference_libs) listings 0)
                   ["bedrooms"]
    = Some st /\
    select_k listings df_filled ti "beds" st = Some (best_k, st') /\
    length (best_ks st) = 10 * length ["bedrooms"] /\
    firstn (length (best_ks st)) (best_ks st') = best_ks st /\
    length (best_ks st') = 10 * (length ["bedrooms"] + 1) /\
    best_k = list_sum (best_ks st') / length (best_ks st').
Proof.
  intros df_filled ti. do 3 eexists. split; [|split].
  - vm_compute. reflexivity.
  - vm_compute. reflexivity.
  - eapply (neighbour_count_averages_whole_run (L := reference_libs) 0
              listings listings_missing_columns ["bedrooms"] "beds").
    + vm_compute. reflexivity.
    + vm_compute. reflexivity.
Defined.

Lemma split_divides_observed_rows_witness :
  let dff := filled_part listings in
  exists test train g',
    sample_permutes reference_libs /\
    shuffle_split (L := reference_libs) dff (test_size (length (rows dff))) 3
    = (test, train, g') /\
    Permutation (rows test ++ rows train) (rows dff) /\
    length (rows test) = 3 * length (rows dff) / 10 /\
    length (rows train) = length (rows dff) - 3 * length (rows dff) / 10 /\
    (rows test = [] <-> length (rows dff) < 4) /\
    columns test = columns dff /\ columns train = columns dff /\
    g' = next_gen (L := reference_libs) dff 3.
Proof.
  intros dff. do 3 eexists. split; [exact reference_sample_permutes|].
  split.
  - vm_compute. reflexivity.
  - apply (split_divides_observed_rows (L := reference_libs)).
    + exact reference_sample_permutes.
    + vm_compute. reflexivity.
Defined.

Lemma placeholder_needs_an_observed_value_witness :
  exists temp,
    fill_others (missing_part listings) listings_missing_columns "bedrooms"
    = Some temp /\
    In "beds" listings_missing_columns /\ "beds" <> "bedrooms" /\
    ((exists q, In (Some q)
                   (column_values "beds" (rows (missing_part listings)))) ->
     Forall (fun v => v <> NaN) (column_values "beds" (rows temp))) /\
    ((forall v, In v (column_values "beds" (rows (missing_part listings))) ->
                v = NaN) ->
     column_values "beds" (rows temp)
     = column_values "beds" (rows (missing_part listings))).
Proof.
  eexists. split; [vm_compute; reflexivity|].
  assert (Hin : In "beds" listings_missing_columns)
    by (right; left; reflexivity).
  assert (Hne : "beds" <> "bedrooms") by discriminate.
  split; [exact Hin|]. split; [exact Hne|].
  apply (placeholder_needs_an_observed_value (missing_part listings) _
           listings_missing_columns "bedrooms" "beds");
    [vm_compute; reflexivity | exact Hin | exact Hne].
Defined.

Lemma registered_columns_decide_partition_witness :
  let r := listing 5 in
  register_missing (frame_columns listings) []
  = Some listings_missing_columns /\
  In r (rows listings) /\
  (In r (rows (missing_part listings)) <->
   exists c, In c listings_missing_columns /\ snd r c = NaN) /\
  (In r (rows (filled_part listings)) <->
   forall c, In c listings_missing_columns -> snd r c <> NaN).
Proof.
  intros r.
  assert (Hreg : register_missing (frame_columns listings) []
                 = Some listings_missing_columns)
    by (vm_compute; reflexivity).
  assert (Hr : In r (rows listings)).
  { change (rows listings) with (map listing (seq 0 23)).
    apply in_map. apply in_seq. lia. }
  split; [exact Hreg|]. split; [exact Hr|].
  apply (registered_columns_decide_partition listings
           listings_missing_columns r Hreg Hr).
Defined.

Lemma dropping_columns_updates_registration_witness :
  exists df',
    NoDup (column_names listings) /\
    register_missing (frame_columns listings) []
    = Some listings_missing_columns /\
    drop_columns listings ["beds"] = Some df' /\
    (forall c, In c ["beds"] -> In c (column_names listings)) /\
    register_missing (frame_columns df') []
    = Some (filter (fun c => negb (mem c ["beds"]))
                   listings_missing_columns) /\
    forall c,
      (In c listings_missing_columns ->
       list_remove c listings_missing_columns
       = Some (filter (fun x => negb (String.eqb x c))
                      listings_missing_columns)) /\
      (~ In c listings_missing_columns ->
       list_remove c listings_missing_columns = None).
Proof.
  assert (Hnd : NoDup (column_names listings)).
  { simpl. repeat constructor; simpl; intuition discriminate. }
  eexists. split; [exact Hnd|].
  split; [vm_compute; reflexivity|].
  split; [reflexivity|].
  apply (dropping_columns_updates_registration listings _ ["beds"]
           listings_missing_columns Hnd);
    [vm_compute; reflexivity | reflexivity].
Defined.

Lemma bad_entries_deleted_witness :
  In "bedrooms" (column_names entries) /\
  In "beds" (column_names entries) /\
  In "bathrooms" (column_names entries) /\
  ~ In "price" (column_names entries) /\
  NoDup (map fst entry_prices) /\
  exists out,
    delete_bad_entries entries entry_prices = Some out /\
    columns out = columns entries ++ [("price", float64)] /\
    rows out = map (with_price entry_prices)
                   (filter (good_entry entry_prices) (rows entries)) /\
    Forall (fun r : labelled_row =>
              forall c, In c ["bedrooms"; "beds"; "bathrooms"; "price"] ->
                        cell_ne (snd r c) 0%Q = true) (rows out) /\
    (Z_increasing (index entries) = true ->
     Z_increasing (index out) = true).
Proof.
  assert (H1 : In "bedrooms" (column_names entries)) by (simpl; auto).
  assert (H2 : In "beds" (column_names entries)) by (simpl; auto).
  assert (H3 : In "bathrooms" (column_names entries)) by (simpl; auto).
  assert (H4 : ~ In "price" (column_names entries)).
  { simpl. intros [H|[H|[H|[]]]]; discriminate H. }
  assert (H5 : NoDup (map fst entry_prices)).
  { simpl. repeat constructor; simpl; intuition discriminate. }
  repeat (split; [assumption|]).
  apply (bad_entries_deleted entries entry_prices H1 H2 H3 H4 H5).
Defined.

Lemma listings_cleaned_witness :
  exists out,
    knn_total_output reference_libs /\
    Z_increasing (index priced_listings) = true /\
    NoDup (map fst listing_prices) /\
    clean_listings (L := reference_libs) 0 priced_listings listing_prices
                   listings_missing_columns
    = Some out /\
    ~ In "price" listings_missing_columns /\
    columns out
    = filter (fun p => negb (String.eqb (fst p) "price"))
             (columns priced_listings)
      ++ [("price", float64)] /\
    Forall2 (fun r r' : labelled_row =>
               fst r' = fst r /\
               snd r' "price" = series_at listing_prices (fst r) /\
               (forall c, In c listings_missing_columns ->
                  snd r' c <> NaN /\ integral (snd r' c)) /\
               (forall c, ~ In c listings_missing_columns ->
                  c <> "price" -> snd r' c = snd r c))
            (rows priced_listings) (rows out).
Proof.
  assert (Hnd : NoDup (map fst listing_prices)).
  { apply increasing_NoDup, Z_increasing_sorted. reflexivity. }
  eexists. split; [exact reference_never_nan|].
  split; [reflexivity|]. split; [exact Hnd|]. split.
  - vm_compute. reflexivity.
  - apply (listings_cleaned (L := reference_libs) 0 priced_listings _
             listing_prices listings_missing_columns reference_never_nan).
    + reflexivity.
    + exact Hnd.
    + vm_compute. reflexivity.
Defined.

Lemma neighbourhoods_trimmed_witness :
  let names := map (fun s : string => s) neighbourhoods in
  Permutation ["Astoria"; "Harlem"] (map fst (Counter names)) /\
  trim_neighbourhoods (fun s : string => s) ["Astoria"; "Harlem"]
                      neighbourhoods
  = (filter (fun e => 100 <=? snd e) (Counter names),
     filter (fun r => 100 <=? count_occ string_dec names r)
            neighbourhoods) /\
  forall k, counter_get (Counter names) k = count_occ string_dec names k.
Proof.
  intros names.
  assert (Hperm : Permutation ["Astoria"; "Harlem"]
                              (map fst (Counter names))).
  { vm_compute. apply perm_swap. }
  split; [exact Hperm|].
  apply (neighbourhoods_trimmed string (fun s => s) ["Astoria"; "Harlem"]
           neighbourhoods Hperm).
Defined.

Lemma price_buckets_are_open_intervals_witness :
  StronglySorted Qle intervals /\
  let buckets := price_buckets (fun p : Q => p) intervals some_prices in
  length buckets = length intervals - 1 /\
  (forall i b,
     nth_error buckets i = Some b ->
     exists lo hi,
       nth_error intervals i = Some lo /\
       nth_error intervals (S i) = Some hi /\
       forall r, In r b <-> In r some_prices /\ (lo < r)%Q /\ (r < hi)%Q) /\
  (forall i j b b' r,
     nth_error buckets i = Some b -> nth_error buckets j = Some b' ->
     In r b -> In r b' -> i = j) /\
  (forall r q b,
     In q intervals -> (r == q)%Q -> In b buckets -> ~ In r b).
Proof.
  assert (Hs : StronglySorted Qle intervals).
  { unfold intervals.
    repeat (constructor; [|repeat constructor; unfold Qle; simpl; lia]).
    constructor. }
  split; [exact Hs|].
  apply (price_buckets_are_open_intervals Q (fun p => p) intervals
           some_prices Hs).
Defined.
